(** * Fixed-arity Merkle tree of crypto3-containers

    A shallow embedding of [include/nil/merkle/merkle.hpp]: the constructor
    of [MerkleTree<Hash, Arity>], which hashes the leaves and then each
    upper row and records the child-to-parent edges in a Boost graph, and
    the queries [children], [parent], [root], [hash_path], [operator[]]
    and the getters.

    Conventions of the embedding.
    - [size_t] values are natural numbers.  Every index the constructor
      computes is below the number of vertices it allocated, so no
      arithmetic of the constructor wraps; the one subtraction that can,
      [len - 1] in [root], is modelled with its wrap-around case spelt out.
    - The Boost graph [adjacency_list<vecS, vecS, bidirectionalS, ...>] is
      a vector of vertices; a vertex carries its hash property and its
      out-edge and in-edge vectors, in insertion order.
    - Undefined behaviour of the C++ (a read or write beyond the vertex
      vector, dereferencing the end of an empty edge range) is the
      explicit outcome [Err Undefined].
    - The one assertion of the constructor is a [BOOST_ASSERT_MSG]: the
      constructor is modelled for both build configurations, with and
      without [NDEBUG]. *)

From Stdlib.Strings Require Import Byte.
From stdpp Require Import base numbers list strings pretty.

Open Scope nat_scope.

(** ** Outcomes *)

(** The error kinds the specification names, together with [Undefined]
    for undefined behaviour of the C++ and [OutOfFuel] for a loop of the
    model that was not given enough steps.  The code under study raises
    [InvalidLeafCount] only: it stands for the failure of
    [BOOST_ASSERT_MSG(data.size() % Arity == 0, "Wrong leafs number")],
    which aborts the program, and only a build that compiles its
    assertions in can raise it. *)
Inductive error : Type :=
  | InvalidLeafCount
  | IndexOutOfRange
  | LeafHasNoChildren
  | RootHasNoParent
  | Undefined
  | OutOfFuel.

Inductive result (A : Type) : Type :=
  | Ok (a : A)
  | Err (e : error).
Arguments Ok {A} a.
Arguments Err {A} e.

Definition result_bind {A B : Type} (f : A -> result B) (m : result A) : result B :=
  match m with
  | Ok a => f a
  | Err e => Err e
  end.

#[global] Instance result_mbind : MBind result := @result_bind.
#[global] Instance result_mret : MRet result := @Ok.

(** [for (i = lo; i < lo + n; ++i) body], the loop state threaded through
    the error monad.  The bounds are evaluated once: none of the loops of
    the constructor changes its own bounds. *)
Fixpoint for_each {S : Type} (body : S -> nat -> result S) (idxs : list nat) (s : S)
  : result S :=
  match idxs with
  | [] => Ok s
  | i :: idxs' =>
      match body s i with
      | Ok s' => for_each body idxs' s'
      | Err e => Err e
      end
  end.

Definition for_range {S : Type} (lo n : nat) (body : S -> nat -> result S) (s : S)
  : result S :=
  for_each body (seq lo n) s.

(** ** Row arithmetic of [nil/merkle/utilities.hpp] *)

Module utilities.

(** Modelled from the spec: [nil/merkle/utilities.hpp], which defines
    [get_merkle_tree_row_count], is not among the sources.  The spec:
    "number of layers from leaves (row 0) to root (row [row_count - 1]);
    derived as the smallest integer such that repeated division of
    [leaf_count] by [arity] reaches 1".  The division is the integer
    division of [size_t]; the count stops as well when the value has
    fallen to 0, where no further division can reach 1.  [fuel] bounds the
    number of divisions; [leafs] divisions are enough when
    [branches >= 2]. *)
Fixpoint row_count_from (fuel cur branches : nat) : nat :=
  match fuel with
  | 0 => 1
  | S fuel' =>
      if cur <=? 1 then 1
      else S (row_count_from fuel' (cur / branches) branches)
  end.

Definition get_merkle_tree_row_count (leafs branches : nat) : nat :=
  row_count_from leafs leafs branches.

(** Modelled from the spec: [get_merkle_tree_len] of the same missing
    header.  The spec: "sum of per-row element counts across all rows,
    derived from [leaf_count] and [arity]", a row holding the count of
    the row below divided by [arity]. *)
Fixpoint len_from (rows cur branches : nat) : nat :=
  match rows with
  | 0 => 0
  | S rows' => cur + len_from rows' (cur / branches) branches
  end.

Definition get_merkle_tree_len (leafs branches : nat) : nat :=
  len_from (get_merkle_tree_row_count leafs branches) leafs branches.

End utilities.

(** ** Byte buffers *)

(** [std::copy(src.begin(), src.end(), dst.begin() + off)] on a buffer
    that is long enough: the bytes of [dst] from [off] on are replaced by
    those of [src]. *)
Definition copy_at (src : list byte) (off : nat) (dst : list byte) : list byte :=
  take off dst ++ src ++ drop (off + length src) dst.

#[global] Instance byte_eq_decision : EqDecision byte := Byte.byte_eq_dec.

(** [operator==] of two byte arrays. *)
Definition bytes_eqb (a b : list byte) : bool := bool_decide (a = b).

(** ** Digest size *)

(** [MerkleTree_basic_policy<Hash>::hash_digest_size], from
    [Hash::digest_bits]. *)
Definition hash_digest_size (digest_bits : nat) : nat :=
  digest_bits / 8 + (if digest_bits mod 8 =? 0 then 0 else 1).

(** ** Text output *)

(** [std::endl], as far as the text goes. *)
Definition endl : string := String (Ascii.ascii_of_nat 10) EmptyString.

(** The [std::ostream] objects of a program: [std::cout], and any other
    stream object, named by a number.  A [std::ostream &] argument is one
    of these names; nothing prevents it from being [std::cout]. *)
Inductive ostream : Type :=
  | std_cout
  | other_stream (id : nat).

#[global] Instance ostream_eq_decision : EqDecision ostream.
Proof. solve_decision. Defined.

(** The text each stream has received so far. *)
Definition streams : Type := ostream -> string.

(** Writing to one stream: [f] maps the text it had to the text it has
    afterwards; the other streams keep theirs. *)
Definition stream_write (s : ostream) (f : string -> string) (os : streams)
    : streams :=
  fun s' => if decide (s' = s) then f (os s') else os s'.

(** ** A small concrete instance, for evaluation *)

Module Toy.

(** A two-byte digest and a positional checksum standing for the hash. *)
Definition element : Type := byte * byte.
Definition element_size : nat := 2.
Definition element_bytes (e : element) : list byte := [e.1; e.2].
Definition default_element : element := (Byte.x00, Byte.x00).

Definition to_byte (n : N) : byte :=
  default Byte.x00 (Byte.of_N (n mod 256)%N).

Definition checksum (m : list byte) : N :=
  fold_left (fun acc b => ((acc * 251 + Byte.to_N b + 7) mod 65536)%N) m 1%N.

Definition hash (m : list byte) : element :=
  (to_byte (checksum m / 256)%N, to_byte (checksum m)).

Definition serialize (a : list byte) : list byte := a.

(** The leaves ['0'], ['1'], ... of the unit tests. *)
Definition digits (n : nat) : list (list byte) :=
  map (fun i => [to_byte (N.of_nat (48 + i))]) (seq 0 n).

(** A digest shown as its two bytes in decimal. *)
Definition show_element (e : element) : string :=
  pretty (Byte.to_N e.1) +:+ "." +:+ pretty (Byte.to_N e.2).

End Toy.

(** ** The tree and its constructor *)

Section Merkle.

(** [Hash::digest_type], a fixed-size array of [element_size] bytes, and
    the hash [crypto3::hash<Hash>] of a byte sequence. *)
Context {element : Type}.
Variable element_size : nat.
Variable element_bytes : element -> list byte.
Variable default_element : element.
Variable hash : list byte -> element.

(** A leaf [std::array<Hashable, Size>] and the bytes the hash reads
    from it. *)
Context {Hashable : Type}.
Variable serialize : Hashable -> list byte.

(** The build configuration: whether [NDEBUG] is defined.  With [NDEBUG]
    defined [BOOST_ASSERT_MSG] expands to nothing; without it, the macro
    evaluates its condition and aborts the program when it is false. *)
Variable NDEBUG : bool.

(** The template parameter [Arity]. *)
Variable Arity : nat.

(** ** The graph *)

Record vertex : Type := Vertex {
  v_hash : element;          (* property vertex_hash_t *)
  v_out : list nat;          (* targets of the out-edges *)
  v_in : list nat            (* sources of the in-edges *)
}.

(** [graph_t], the vertex vector. *)
Abbreviation graph_t := (list vertex).

Definition default_vertex : vertex := Vertex default_element [] [].

Definition set_hash (d : element) (w : vertex) : vertex :=
  Vertex d (v_out w) (v_in w).
Definition push_out (v : nat) (w : vertex) : vertex :=
  Vertex (v_hash w) (v_out w ++ [v]) (v_in w).
Definition push_in (u : nat) (w : vertex) : vertex :=
  Vertex (v_hash w) (v_out w) (v_in w ++ [u]).

(** [boost::add_vertex(g)] *)
Definition add_vertex (g : graph_t) : graph_t := g ++ [default_vertex].

(** [add_edge(u, v, g)] on a [vecS] vertex list: the vertex vector is
    first resized to hold both ends, then the edge is appended to the
    out-edges of [u] and to the in-edges of [v]. *)
Definition add_edge (u v : nat) (g : graph_t) : graph_t :=
  let x := Nat.max u v in
  let g1 :=
    if length g <=? x then g ++ replicate (x + 1 - length g) default_vertex
    else g in
  alter (push_in u) v (alter (push_out v) u g1).

(** [hash_map[idx]] read and written; the property map does not check
    its index. *)
Definition hash_map_get (g : graph_t) (idx : nat) : result element :=
  match g !! idx with
  | Some w => Ok (v_hash w)
  | None => Err Undefined
  end.

Definition hash_map_set (g : graph_t) (idx : nat) (d : element) : result graph_t :=
  match g !! idx with
  | Some w => Ok (<[idx := set_hash d w]> g)
  | None => Err Undefined
  end.

(** ** The tree *)

Record MerkleTree : Type := mkMerkleTree {
  Tree : graph_t;
  leafs : nat;
  len : nat;
  row_count : nat
}.

(** State of the row loop of the constructor. *)
Record layer_state : Type := LayerState {
  ls_graph : graph_t;
  prev_layer_element : nat;
  start_layer_element : nat;
  layer_elements : nat
}.

(** The loop over [i]: one child digest copied into [new_input] and one
    edge added per round. *)
Definition child_body (current_element start_layer prev_layer : nat)
    (st : list byte * graph_t) (i : nat) : result (list byte * graph_t) :=
  let '(new_input, g) := st in
  let children_index :=
    (current_element - start_layer) * Arity + prev_layer + i in
  h ← hash_map_get g children_index;
  Ok (copy_at (element_bytes h) (i * element_size) new_input,
      add_edge children_index current_element g).

(** The body of the loop over [current_element].  [new_input] is an
    uninitialised array of [element_size * Arity] bytes; it is modelled
    as zero bytes, every one of which the loop over [i] overwrites. *)
Definition element_body (data : list Hashable) (row_number start_layer prev_layer : nat)
    (g : graph_t) (current_element : nat) : result graph_t :=
  if row_number =? 0 then
    match data !! current_element with
    | Some a => hash_map_set g current_element (hash (serialize a))
    | None => Err Undefined
    end
  else
    '(new_input, g') ←
      for_range 0 Arity (child_body current_element start_layer prev_layer)
        (replicate (element_size * Arity) Byte.x00, g);
    hash_map_set g' current_element (hash new_input).

(** The body of the loop over [row_number]. *)
Definition row_body (data : list Hashable) (st : layer_state) (row_number : nat)
    : result layer_state :=
  g ← for_range (start_layer_element st) (layer_elements st)
        (element_body data row_number (start_layer_element st) (prev_layer_element st))
        (ls_graph st);
  Ok (LayerState g
        (start_layer_element st)
        (start_layer_element st + layer_elements st)
        (layer_elements st / Arity)).

(** [MerkleTree::MerkleTree(data)].  The assertion comes first, in a
    build that has assertions; with [Arity = 0] its remainder, and the
    division of the row loop, are undefined. *)
Definition MerkleTree_ctor (data : list Hashable) : result MerkleTree :=
  if Arity =? 0 then Err Undefined
  else if negb NDEBUG && negb (length data mod Arity =? 0) then Err InvalidLeafCount
  else
    let leafs := length data in
    let len := utilities.get_merkle_tree_len leafs Arity in
    let row_count := utilities.get_merkle_tree_row_count leafs Arity in
    let g0 := Nat.iter len add_vertex [] in
    st ← for_range 0 row_count (row_body data) (LayerState g0 0 0 leafs);
    Ok (mkMerkleTree (ls_graph st) leafs len row_count).

(** ** Queries *)

(** [children(leaf_index)]: the sources of the in-edges are written into
    an uninitialised [std::array<size_t, Arity>]; a cell that is never
    written stays [None].  Writing beyond the array is undefined. *)
Definition children_body (res : list (option nat)) (p : nat * nat)
    : result (list (option nat)) :=
  let '(i, src) := p in
  if i <? length res then Ok (<[i := Some src]> res) else Err Undefined.

Fixpoint children_loop (res : list (option nat)) (i : nat) (ein : list nat)
    : result (list (option nat)) :=
  match ein with
  | [] => Ok res
  | src :: ein' =>
      match children_body res (i, src) with
      | Ok res' => children_loop res' (S i) ein'
      | Err e => Err e
      end
  end.

Definition children (t : MerkleTree) (leaf_index : nat) : result (list (option nat)) :=
  match Tree t !! leaf_index with
  | Some w => children_loop (replicate Arity None) 0 (v_in w)
  | None => Err Undefined
  end.

(** [parent(leaf_index)]: the target of the first out-edge, read without
    testing that there is one. *)
Definition parent (t : MerkleTree) (leaf_index : nat) : result nat :=
  match Tree t !! leaf_index with
  | Some w =>
      match v_out w with
      | p :: _ => Ok p
      | [] => Err Undefined
      end
  | None => Err Undefined
  end.

(** [root()]: [hash_map[len - 1]]; with [len = 0] the index wraps to
    the largest [size_t], beyond every vertex. *)
Definition root (t : MerkleTree) : result element :=
  match len t with
  | 0 => Err Undefined
  | S k => hash_map_get (Tree t) k
  end.

(** The [while] loop of [hash_path]: [ai] designates the first adjacent
    vertex of [cur], if any.  The loop of the source has no bound; [fuel]
    bounds the number of its rounds in the model, and [hash_path] allows
    one round more than there are vertices. *)
Fixpoint hash_path_loop (fuel : nat) (g : graph_t) (cur : nat) (res : list element)
    : result (list element) :=
  match fuel with
  | 0 => Err OutOfFuel
  | S fuel' =>
      match g !! cur with
      | None => Err Undefined
      | Some w =>
          match v_out w with
          | [] => Ok res
          | ai :: _ =>
              h ← hash_map_get g ai;
              hash_path_loop fuel' g ai (res ++ [h])
          end
      end
  end.

Definition hash_path (t : MerkleTree) (leaf_index : nat) : result (list element) :=
  h ← hash_map_get (Tree t) leaf_index;
  hash_path_loop (S (length (Tree t))) (Tree t) leaf_index [h].

(** [operator[](idx)] returns [element &]: the caller can read the
    stored digest, and can assign through the reference. *)
Definition operator_index (t : MerkleTree) (idx : nat) : result element :=
  hash_map_get (Tree t) idx.

Definition operator_index_assign (t : MerkleTree) (idx : nat) (d : element)
    : result MerkleTree :=
  g ← hash_map_set (Tree t) idx d;
  Ok (mkMerkleTree g (leafs t) (len t) (row_count t)).

Definition get_row_count (t : MerkleTree) : nat := row_count t.
Definition get_len (t : MerkleTree) : nat := len t.
Definition get_leafs (t : MerkleTree) : nat := leafs t.

(** ** The proof engine *)

(** [operator==] of two digests compares their bytes. *)
Definition element_eqb (a b : element) : bool :=
  bytes_eqb (element_bytes a) (element_bytes b).

(** Modelled from the spec: [nil/merkle/proof.hpp], which defines
    [MerkleProof], is not among the sources.  The spec: "Precondition:
    [0 <= leafIndex < tree.leaf_count]; out-of-range fails with
    [IndexOutOfRange].  Result: [Proof = tree.hashPath(leafIndex)]". *)
Definition prove (t : MerkleTree) (leafIndex : nat) : result (list element) :=
  if leafIndex <? leafs t then hash_path t leafIndex else Err IndexOutOfRange.

(** Modelled from the spec: [validate] of the same missing header.  The
    spec: it "computes [hashFn(serialize(claimedElement))] and compares
    it, byte-for-byte, to [tree.digest(leafIndex)]", and "returns [true]
    only if that equality holds AND the leaf's recorded digest is
    reachable to [tree.root()] via the recorded parent chain": the chain
    is the proof, whose last digest is compared with the root. *)
Definition validate (t : MerkleTree) (leafIndex : nat) (claimedElement : Hashable)
    : result bool :=
  proof ← prove t leafIndex;
  stored ← operator_index t leafIndex;
  r ← root t;
  Ok (element_eqb (hash (serialize claimedElement)) stored
      && match last proof with
         | Some top => element_eqb top r
         | None => false
         end).

(** ** The public interface as state transformers *)

(** One call on a tree.  Every member function is non-const; the only
    one that hands out write access is [operator[]], whose result is a
    reference the caller may assign through ([CallIndexAssign]). *)
Inductive call : Type :=
  | CallRoot
  | CallChildren (idx : nat)
  | CallParent (idx : nat)
  | CallHashPath (idx : nat)
  | CallIndex (idx : nat)
  | CallIndexAssign (idx : nat) (d : element)
  | CallGetRowCount
  | CallGetLen
  | CallGetLeafs.

Inductive value : Type :=
  | VElement (e : element)
  | VChildren (cs : list (option nat))
  | VPath (p : list element)
  | VSize (n : nat)
  | VUnit.

Definition is_assign (c : call) : bool :=
  match c with
  | CallIndexAssign _ _ => true
  | _ => false
  end.

(** The value a call returns and the tree it leaves. *)
Definition run (c : call) (t : MerkleTree) : result (value * MerkleTree) :=
  match c with
  | CallRoot => e ← root t; Ok (VElement e, t)
  | CallChildren idx => cs ← children t idx; Ok (VChildren cs, t)
  | CallParent idx => p ← parent t idx; Ok (VSize p, t)
  | CallHashPath idx => p ← hash_path t idx; Ok (VPath p, t)
  | CallIndex idx => e ← operator_index t idx; Ok (VElement e, t)
  | CallIndexAssign idx d => t' ← operator_index_assign t idx d; Ok (VUnit, t')
  | CallGetRowCount => Ok (VSize (get_row_count t), t)
  | CallGetLen => Ok (VSize (get_len t), t)
  | CallGetLeafs => Ok (VSize (get_leafs t), t)
  end.

Fixpoint run_all (cs : list call) (t : MerkleTree) : result MerkleTree :=
  match cs with
  | [] => Ok t
  | c :: cs' =>
      match run c t with
      | Ok (_, t') => run_all cs' t'
      | Err e => Err e
      end
  end.

(** ** Rows *)

(** The vertex at index [j]; beyond the vector, a default vertex. *)
Definition vertex_at (g : graph_t) (j : nat) : vertex :=
  default default_vertex (g !! j).

(** [layer_elements] and [start_layer_element] when the row loop enters
    row [r]. *)
Definition row_size (leaf_count r : nat) : nat :=
  Nat.iter r (fun n => n / Arity) leaf_count.

Fixpoint row_start (leaf_count r : nat) : nat :=
  match r with
  | 0 => 0
  | S r' => row_start leaf_count r' + row_size leaf_count r'
  end.

Definition in_row (leaf_count r j : nat) : Prop :=
  row_start leaf_count r <= j < row_start leaf_count r + row_size leaf_count r.

(** Index of the first child of node [j] of row [r], and of the parent
    of node [j] of row [r]. *)
Definition first_child (leaf_count r j : nat) : nat :=
  row_start leaf_count (Nat.pred r) + (j - row_start leaf_count r) * Arity.

Definition parent_of (leaf_count r j : nat) : nat :=
  row_start leaf_count (S r) + (j - row_start leaf_count r) / Arity.

(** The digests of the [Arity] vertices from [base] on, and their
    concatenation. *)
Definition children_digests (g : graph_t) (base : nat) : list element :=
  map (fun i => v_hash (vertex_at g (base + i))) (seq 0 Arity).

Definition child_buffer (g : graph_t) (base : nat) : list byte :=
  concat (map element_bytes (children_digests g base)).

(** The leaf count is a power of the arity. *)
Definition perfect (leaf_count : nat) : Prop :=
  exists k, 0 < k /\ leaf_count = Arity ^ k.

(** The nodes met from [i] by following [parent] until there is none. *)
Inductive parent_path (t : MerkleTree) : nat -> list nat -> Prop :=
  | parent_path_top i :
      i < length (Tree t) -> parent t i = Err Undefined -> parent_path t i [i]
  | parent_path_step i p l :
      parent t i = Ok p -> parent_path t p l -> parent_path t i (i :: l).

(** What the constructor leaves in the graph. *)
Record tree_shape (data : list Hashable) (t : MerkleTree) : Prop := {
  shape_leafs : leafs t = length data;
  shape_row_count :
    row_count t = utilities.get_merkle_tree_row_count (length data) Arity;
  shape_len : len t = row_start (length data) (row_count t);
  shape_length : length (Tree t) = len t;
  shape_leaf_hash : forall j a,
    data !! j = Some a -> v_hash (vertex_at (Tree t) j) = hash (serialize a);
  shape_node_hash : forall r j,
    0 < r < row_count t -> in_row (length data) r j ->
    v_hash (vertex_at (Tree t) j)
    = hash (child_buffer (Tree t) (first_child (length data) r j));
  shape_in : forall r j,
    r < row_count t -> in_row (length data) r j ->
    v_in (vertex_at (Tree t) j)
    = if r =? 0 then [] else seq (first_child (length data) r j) Arity;
  shape_out : forall r j,
    r < row_count t -> in_row (length data) r j ->
    v_out (vertex_at (Tree t) j)
    = if decide (S r < row_count t
                 /\ j - row_start (length data) r < row_size (length data) (S r) * Arity)
      then [parent_of (length data) r j] else []
}.

(** What the row loop has established when it enters row [R], the graph
    holding [L] vertices. *)
Record rows_done (data : list Hashable) (L R : nat) (st : layer_state) : Prop := {
  rd_prev : prev_layer_element st = row_start (length data) (Nat.pred R);
  rd_start : start_layer_element st = row_start (length data) R;
  rd_layer : layer_elements st = row_size (length data) R;
  rd_length : length (ls_graph st) = L;
  rd_leaf_hash : forall j a,
    0 < R -> data !! j = Some a ->
    v_hash (vertex_at (ls_graph st) j) = hash (serialize a);
  rd_node_hash : forall r j,
    0 < r < R -> in_row (length data) r j ->
    v_hash (vertex_at (ls_graph st) j)
    = hash (child_buffer (ls_graph st) (first_child (length data) r j));
  rd_in : forall r j,
    r < R -> in_row (length data) r j ->
    v_in (vertex_at (ls_graph st) j)
    = if r =? 0 then [] else seq (first_child (length data) r j) Arity;
  rd_in_above : forall j,
    row_start (length data) R <= j -> v_in (vertex_at (ls_graph st) j) = [];
  rd_out : forall r j,
    r < R -> in_row (length data) r j ->
    v_out (vertex_at (ls_graph st) j)
    = if decide (S r < R
                 /\ j - row_start (length data) r < row_size (length data) (S r) * Arity)
      then [parent_of (length data) r j] else [];
  rd_out_above : forall j,
    row_start (length data) R <= j -> v_out (vertex_at (ls_graph st) j) = []
}.

(** ** Printing *)

(** The text [operator<<] writes for a digest.  It is defined with
    [digest_type] in [nil/crypto3/detail/static_digest.hpp], which is not
    among the sources, and is taken as a parameter. *)
Variable show_element : element -> string.

(** The loop over the in-edges in [print] and in [operator<<]: each
    source is written with its label, followed by two spaces. *)
Definition show_sources (label : nat -> string) (ein : list nat) (out : string)
    : string :=
  foldl (fun o src => o +:+ label src +:+ "  ") out ein.

(** One round of the loop over the vertices: the label of the vertex,
    [" --- leaf"] when it has no in-edge and [" <-- "] otherwise, its
    sources, and the end of the line. *)
Definition show_vertex (label : nat -> string) (i : nat) (w : vertex) (out : string)
    : string :=
  let out1 :=
    match v_in w with
    | [] => out +:+ label i +:+ " --- leaf"
    | _ :: _ => out +:+ label i +:+ " <-- "
    end in
  show_sources label (v_in w) out1 +:+ endl.

Fixpoint show_vertices (label : nat -> string) (i : nat) (vs : list vertex)
    (out : string) : string :=
  match vs with
  | [] => out
  | w :: vs' => show_vertices label (S i) vs' (show_vertex label i w out)
  end.

(** [print(g)]: the text appended to [std::cout]; a vertex is labelled
    by its index. *)
Definition print (g : graph_t) (cout : string) : string :=
  show_vertices pretty 0 g cout.

(** [operator<<(o, a)]: a vertex is labelled by its index and its
    digest.  Every [<<] of the body has [std::cout] on its left, so the
    text goes to the object [std::cout], whichever stream the reference
    [o] designates; the result is the reference [o]. *)
Definition vertex_label (g : graph_t) (i : nat) : string :=
  "(" +:+ pretty i +:+ ", " +:+ show_element (v_hash (vertex_at g i)) +:+ ")".

Definition operator_shl (o : ostream) (a : MerkleTree) (os : streams)
    : ostream * streams :=
  (o, stream_write std_cout (show_vertices (vertex_label (Tree a)) 0 (Tree a)) os).

(** The line of text for vertex [j] of [g]: its label, the mark, its
    sources in the order of the in-edges, the end of the line. *)
Definition vertex_line (label : nat -> string) (g : graph_t) (j : nat) : string :=
  label j
  +:+ match v_in (vertex_at g j) with
      | [] => " --- leaf"
      | _ :: _ => " <-- "
      end
  +:+ String.concat "" (map (fun src => label src +:+ "  ") (v_in (vertex_at g j)))
  +:+ endl.

(** ** Rows of digests *)

(** The byte strings hashed for the nodes above a row of digests [ds]:
    node [q] hashes the concatenation of the digests [q * Arity], ...,
    [q * Arity + Arity - 1]; the digests left over after the last full
    group are not used. *)
Definition chunk_inputs (ds : list element) : list (list byte) :=
  map (fun q => concat (map element_bytes (take Arity (drop (q * Arity) ds))))
    (seq 0 (length ds / Arity)).

Definition level_up (ds : list element) : list element :=
  map hash (chunk_inputs ds).

(** Row [r] of digests over the leaves [data], as in the diagram that
    heads [merkle.hpp]: [h1 = h(tx1)], [h12 = h(h1 + h2)],
    [root = h(h12 + h34)]. *)
Definition level (data : list Hashable) (r : nat) : list element :=
  Nat.iter r level_up (map (fun a => hash (serialize a)) data).

(** The byte strings hashed to form row [r]. *)
Definition hashed (data : list Hashable) (r : nat) : list (list byte) :=
  match r with
  | 0 => map serialize data
  | S r' => chunk_inputs (level data r')
  end.

(** ** Facts about the graph operations *)

(** A digest is an array of [element_size] bytes: [Hash::digest_type]
    holds [digest_bits / 8] bytes, which is [hash_digest_size] for every
    hash whose [digest_bits] is a multiple of 8, as those of the unit
    tests are. *)
Hypothesis element_bytes_length :
  forall e, length (element_bytes e) = element_size.

Lemma vertex_at_lookup (g : graph_t) j w : g !! j = Some w -> vertex_at g j = w.
Proof. unfold vertex_at. by intros ->. Qed.

Lemma lookup_vertex_at (g : graph_t) j : j < length g -> g !! j = Some (vertex_at g j).
Proof.
  intros Hj. destruct (lookup_lt_is_Some_2 g j Hj) as [w Hw].
  by rewrite (vertex_at_lookup _ _ _ Hw).
Qed.

Lemma vertex_at_ge (g : graph_t) j : length g <= j -> vertex_at g j = default_vertex.
Proof. intros Hj. unfold vertex_at. by rewrite lookup_ge_None_2. Qed.

Lemma vertex_at_pad (g : graph_t) n j :
  vertex_at (g ++ replicate n default_vertex) j = vertex_at g j.
Proof.
  unfold vertex_at. destruct (decide (j < length g)) as [Hj|Hj].
  - by rewrite lookup_app_l.
  - rewrite lookup_app_r by lia. rewrite (lookup_ge_None_2 g) by lia.
    destruct (replicate n default_vertex !! (j - length g)) as [w|] eqn:Hw; [|done].
    apply lookup_replicate in Hw as [-> _]. done.
Qed.

Lemma vertex_at_alter f (g : graph_t) i j :
  i < length g ->
  vertex_at (alter f i g) j = if decide (j = i) then f (vertex_at g j) else vertex_at g j.
Proof.
  intros Hi. unfold vertex_at. case_decide as Hij.
  - subst j. rewrite list_lookup_alter_eq.
    destruct (lookup_lt_is_Some_2 g i Hi) as [w ->]. done.
  - by rewrite list_lookup_alter_ne.
Qed.

Lemma add_edge_length u v (g : graph_t) :
  length (add_edge u v g) = Nat.max (length g) (S (Nat.max u v)).
Proof.
  unfold add_edge. rewrite !length_alter.
  destruct (Nat.leb_spec (length g) (Nat.max u v)).
  - rewrite length_app, length_replicate. lia.
  - lia.
Qed.

Lemma add_edge_vertex u v (g : graph_t) j :
  vertex_at (add_edge u v g) j
  = (if decide (j = v) then push_in u else id)
      ((if decide (j = u) then push_out v else id) (vertex_at g j)).
Proof.
  unfold add_edge.
  set (g1 := if length g <=? Nat.max u v then _ else g).
  assert (Hlen : Nat.max u v < length g1).
  { subst g1. destruct (Nat.leb_spec (length g) (Nat.max u v)).
    - rewrite length_app, length_replicate. lia.
    - lia. }
  assert (Hg1 : vertex_at g1 j = vertex_at g j).
  { subst g1. destruct (length g <=? Nat.max u v); [apply vertex_at_pad|done]. }
  rewrite vertex_at_alter by (rewrite length_alter; lia).
  rewrite vertex_at_alter by lia.
  rewrite Hg1. by repeat case_decide.
Qed.

Lemma add_edge_hash u v (g : graph_t) j :
  v_hash (vertex_at (add_edge u v g) j) = v_hash (vertex_at g j).
Proof. rewrite add_edge_vertex. by repeat case_decide. Qed.

Lemma add_edge_out u v (g : graph_t) j :
  v_out (vertex_at (add_edge u v g) j)
  = if decide (j = u) then v_out (vertex_at g j) ++ [v] else v_out (vertex_at g j).
Proof. rewrite add_edge_vertex. by repeat case_decide. Qed.

Lemma add_edge_in u v (g : graph_t) j :
  v_in (vertex_at (add_edge u v g) j)
  = if decide (j = v) then v_in (vertex_at g j) ++ [u] else v_in (vertex_at g j).
Proof. rewrite add_edge_vertex. by repeat case_decide. Qed.

Lemma hash_map_get_lt (g : graph_t) j :
  j < length g -> hash_map_get g j = Ok (v_hash (vertex_at g j)).
Proof. intros Hj. unfold hash_map_get. by rewrite lookup_vertex_at. Qed.

Lemma hash_map_get_ge (g : graph_t) j :
  length g <= j -> hash_map_get g j = Err Undefined.
Proof. intros Hj. unfold hash_map_get. by rewrite lookup_ge_None_2. Qed.

Lemma hash_map_set_lt (g : graph_t) j d :
  j < length g ->
  exists g', hash_map_set g j d = Ok g'
    /\ length g' = length g
    /\ (forall i, v_hash (vertex_at g' i)
                  = if decide (i = j) then d else v_hash (vertex_at g i))
    /\ (forall i, v_out (vertex_at g' i) = v_out (vertex_at g i))
    /\ (forall i, v_in (vertex_at g' i) = v_in (vertex_at g i)).
Proof.
  intros Hj. unfold hash_map_set. rewrite lookup_vertex_at by done.
  eexists; split; [done|]. split; [by rewrite length_insert|].
  assert (Hv : forall i, vertex_at (<[j:=set_hash d (vertex_at g j)]> g) i
                = if decide (i = j) then set_hash d (vertex_at g j) else vertex_at g i).
  { intros i. unfold vertex_at at 1. case_decide as Hij.
    - subst i. by rewrite list_lookup_insert_eq.
    - by rewrite list_lookup_insert_ne. }
  split; [|split]; intros i; rewrite Hv; case_decide; by subst.
Qed.

Lemma hash_map_set_ge (g : graph_t) j d :
  length g <= j -> hash_map_set g j d = Err Undefined.
Proof. intros Hj. unfold hash_map_set. by rewrite lookup_ge_None_2. Qed.

(** ** Loops *)

Lemma for_each_snoc {S : Type} (body : S -> nat -> result S) idxs i s :
  for_each body (idxs ++ [i]) s
  = match for_each body idxs s with
    | Ok s' => body s' i
    | Err e => Err e
    end.
Proof.
  revert s. induction idxs as [|j idxs IH]; intros s; simpl.
  - by destruct (body s i).
  - destruct (body s j); [apply IH|done].
Qed.

Lemma for_range_S {S : Type} lo n (body : S -> nat -> result S) s :
  for_range lo (Datatypes.S n) body s
  = match for_range lo n body s with
    | Ok s' => body s' (lo + n)
    | Err e => Err e
    end.
Proof. unfold for_range. by rewrite seq_S, for_each_snoc. Qed.

(** A loop whose every round succeeds and re-establishes an invariant
    indexed by the number of rounds done. *)
Lemma for_range_inv {S : Type} (P : nat -> S -> Prop) lo n
    (body : S -> nat -> result S) s :
  P 0 s ->
  (forall k s, k < n -> P k s -> exists s', body s (lo + k) = Ok s' /\ P (Datatypes.S k) s') ->
  exists s', for_range lo n body s = Ok s' /\ P n s'.
Proof.
  intros H0 Hstep. induction n as [|n IH].
  - exists s. done.
  - destruct IH as (s1 & Hs1 & HP); [intros; apply Hstep; [lia|done]|].
    destruct (Hstep n s1) as (s2 & Hs2 & HP2); [lia|done|].
    exists s2. by rewrite for_range_S, Hs1.
Qed.

(** ** The buffer of child digests *)

Lemma copy_at_length src off dst :
  off + length src <= length dst -> length (copy_at src off dst) = length dst.
Proof.
  intros H. unfold copy_at.
  rewrite !length_app, length_take, length_drop. lia.
Qed.

Lemma copy_at_take src off dst :
  off + length src <= length dst ->
  take (off + length src) (copy_at src off dst) = take off dst ++ src.
Proof.
  intros H. unfold copy_at. rewrite app_assoc.
  rewrite take_app_length'; [done|].
  rewrite length_app, length_take. lia.
Qed.

(** The loop over [i] fills [new_input] with the digests of the [Arity]
    vertices from [base] on, in increasing order of index, and adds one
    edge from each of them to [cur]. *)
Lemma child_loop_ok cur s p (g0 : graph_t) :
  (cur - s) * Arity + p + Arity <= length g0 ->
  cur < length g0 ->
  exists buf g,
    for_range 0 Arity (child_body cur s p)
      (replicate (element_size * Arity) Byte.x00, g0) = Ok (buf, g)
    /\ length g = length g0
    /\ buf = child_buffer g0 ((cur - s) * Arity + p)
    /\ (forall j, v_hash (vertex_at g j) = v_hash (vertex_at g0 j))
    /\ (forall j, v_out (vertex_at g j)
                  = if decide ((cur - s) * Arity + p <= j < (cur - s) * Arity + p + Arity)
                    then v_out (vertex_at g0 j) ++ [cur] else v_out (vertex_at g0 j))
    /\ (forall j, v_in (vertex_at g j)
                  = if decide (j = cur)
                    then v_in (vertex_at g0 j) ++ seq ((cur - s) * Arity + p) Arity
                    else v_in (vertex_at g0 j)).
Proof.
  set (base := (cur - s) * Arity + p). intros Hbase Hcur.
  pose (P := fun (k : nat) (st : list byte * list vertex) =>
    length st.2 = length g0
    /\ length st.1 = element_size * Arity
    /\ take (k * element_size) st.1
       = concat (map element_bytes
                   (map (fun i => v_hash (vertex_at g0 (base + i))) (seq 0 k)))
    /\ (forall j, v_hash (vertex_at st.2 j) = v_hash (vertex_at g0 j))
    /\ (forall j, v_out (vertex_at st.2 j)
                  = if decide (base <= j < base + k)
                    then v_out (vertex_at g0 j) ++ [cur] else v_out (vertex_at g0 j))
    /\ (forall j, v_in (vertex_at st.2 j)
                  = if decide (j = cur)
                    then v_in (vertex_at g0 j) ++ seq base k
                    else v_in (vertex_at g0 j))).
  destruct (for_range_inv P 0 Arity (child_body cur s p)
              (replicate (element_size * Arity) Byte.x00, g0))
    as ([buf g] & Hrun & Hlen & Hbuf & Htake & Hh & Ho & Hi).
  - unfold P; simpl. rewrite length_replicate. repeat split; try done.
    + intros j. case_decide; [lia|done].
    + intros j. case_decide; [by rewrite app_nil_r|done].
  - intros k [buf g] Hk (Hlen & Hbuf & Htake & Hh & Ho & Hi). simpl in *.
    unfold child_body. fold base. simpl.
    rewrite hash_map_get_lt by lia. simpl.
    eexists; split; [done|]. unfold P; cbn [fst snd].
    assert (Hfit : k * element_size + length (element_bytes (v_hash (vertex_at g (base + k))))
                   <= length buf).
    { rewrite element_bytes_length, Hbuf. nia. }
    split; [rewrite add_edge_length; lia|].
    split; [by rewrite copy_at_length|].
    split.
    { replace (S k * element_size)
        with (k * element_size + length (element_bytes (v_hash (vertex_at g (base + k)))))
        by (rewrite element_bytes_length; lia).
      rewrite copy_at_take by done. rewrite Htake.
      rewrite seq_S, !map_app, concat_app. simpl. by rewrite app_nil_r, Hh. }
    split; [intros j; by rewrite add_edge_hash|].
    split.
    + intros j. rewrite add_edge_out, Ho. repeat case_decide; try lia; done.
    + intros j. rewrite add_edge_in, Hi.
      repeat case_decide; try done. by rewrite seq_S, app_assoc.
  - simpl in *. exists buf, g. repeat split; try done.
    unfold child_buffer, children_digests. rewrite <- Htake.
    rewrite take_ge; [done|]. rewrite Hbuf. lia.
Qed.

Lemma child_buffer_ext (g g' : graph_t) base :
  (forall i, i < Arity ->
     v_hash (vertex_at g (base + i)) = v_hash (vertex_at g' (base + i))) ->
  child_buffer g base = child_buffer g' base.
Proof.
  intros H. unfold child_buffer, children_digests. do 2 f_equal.
  apply map_ext_in. intros i Hi. apply in_seq in Hi. apply H. lia.
Qed.

Lemma concat_bytes_length (l : list element) :
  length (concat (map element_bytes l)) = length l * element_size.
Proof.
  induction l as [|e l IH]; simpl; [done|].
  rewrite length_app, element_bytes_length, IH. done.
Qed.

Lemma child_buffer_length (g : graph_t) base :
  length (child_buffer g base) = Arity * element_size.
Proof.
  unfold child_buffer, children_digests.
  by rewrite concat_bytes_length, length_map, length_seq.
Qed.

(** ** One node *)

Lemma element_body_leaf data s p (g0 : graph_t) cur a :
  data !! cur = Some a -> cur < length g0 ->
  exists g, element_body data 0 s p g0 cur = Ok g
    /\ length g = length g0
    /\ (forall j, v_hash (vertex_at g j)
                  = if decide (j = cur) then hash (serialize a)
                    else v_hash (vertex_at g0 j))
    /\ (forall j, v_out (vertex_at g j) = v_out (vertex_at g0 j))
    /\ (forall j, v_in (vertex_at g j) = v_in (vertex_at g0 j)).
Proof.
  intros Ha Hcur. unfold element_body. simpl. rewrite Ha.
  by apply hash_map_set_lt.
Qed.

Lemma element_body_upper data r s p (g0 : graph_t) cur :
  r <> 0 ->
  (cur - s) * Arity + p + Arity <= length g0 ->
  cur < length g0 ->
  exists g, element_body data r s p g0 cur = Ok g
    /\ length g = length g0
    /\ (forall j, v_hash (vertex_at g j)
                  = if decide (j = cur)
                    then hash (child_buffer g0 ((cur - s) * Arity + p))
                    else v_hash (vertex_at g0 j))
    /\ (forall j, v_out (vertex_at g j)
                  = if decide ((cur - s) * Arity + p <= j < (cur - s) * Arity + p + Arity)
                    then v_out (vertex_at g0 j) ++ [cur] else v_out (vertex_at g0 j))
    /\ (forall j, v_in (vertex_at g j)
                  = if decide (j = cur)
                    then v_in (vertex_at g0 j) ++ seq ((cur - s) * Arity + p) Arity
                    else v_in (vertex_at g0 j)).
Proof.
  intros Hr Hbase Hcur. unfold element_body.
  destruct (Nat.eqb_spec r 0) as [|_]; [done|].
  destruct (child_loop_ok cur s p g0 Hbase Hcur)
    as (buf & g1 & Hrun & Hlen & Hbuf & Hh & Ho & Hi).
  rewrite Hrun. simpl.
  destruct (hash_map_set_lt g1 cur (hash buf)) as (g & Hset & Hlen' & Hh' & Ho' & Hi');
    [lia|].
  exists g. split; [done|]. split; [lia|]. split; [|split].
  - intros j. rewrite Hh', Hh, Hbuf. done.
  - intros j. by rewrite Ho', Ho.
  - intros j. by rewrite Hi', Hi.
Qed.

(** ** One row *)

Lemma div_in_block a x k : k * a <= x < k * a + a -> x / a = k.
Proof.
  intros H. symmetry. apply (Nat.div_unique x a k (x - k * a)); lia.
Qed.

Lemma leaf_row_ok (data : list Hashable) (g0 : graph_t) :
  length data <= length g0 ->
  exists g, for_range 0 (length data) (element_body data 0 0 0) g0 = Ok g
    /\ length g = length g0
    /\ (forall j a, data !! j = Some a ->
          v_hash (vertex_at g j) = hash (serialize a))
    /\ (forall j, length data <= j -> v_hash (vertex_at g j) = v_hash (vertex_at g0 j))
    /\ (forall j, v_out (vertex_at g j) = v_out (vertex_at g0 j))
    /\ (forall j, v_in (vertex_at g j) = v_in (vertex_at g0 j)).
Proof.
  intros Hlen.
  pose (P := fun (k : nat) (g : list vertex) =>
    length g = length g0
    /\ (forall j a, j < k -> data !! j = Some a ->
          v_hash (vertex_at g j) = hash (serialize a))
    /\ (forall j, k <= j -> v_hash (vertex_at g j) = v_hash (vertex_at g0 j))
    /\ (forall j, v_out (vertex_at g j) = v_out (vertex_at g0 j))
    /\ (forall j, v_in (vertex_at g j) = v_in (vertex_at g0 j))).
  destruct (for_range_inv P 0 (length data) (element_body data 0 0 0) g0)
    as (g & Hrun & Hl & Hh & Hh' & Ho & Hi).
  - unfold P. repeat split; try done. intros; lia.
  - intros k g Hk (Hl & Hh & Hh' & Ho & Hi). simpl.
    destruct (lookup_lt_is_Some_2 data k Hk) as [a Ha].
    destruct (element_body_leaf data 0 0 g k a Ha) as (g1 & Hb & Hl1 & Hh1 & Ho1 & Hi1);
      [lia|].
    exists g1. split; [done|]. unfold P. split; [lia|]. split; [|split; [|split]].
    + intros j b Hj Hb'. rewrite Hh1. case_decide as Hjk.
      * subst j. congruence.
      * apply Hh; [lia|done].
    + intros j Hj. rewrite Hh1. case_decide; [lia|]. apply Hh'. lia.
    + intros j. by rewrite Ho1.
    + intros j. by rewrite Hi1.
  - exists g. repeat split; try done.
    intros j a Ha. apply Hh; [|done]. by apply lookup_lt_Some in Ha.
Qed.

Lemma upper_row_ok data r s p n (g0 : graph_t) :
  r <> 0 -> 0 < Arity ->
  p + n * Arity <= s -> s + n <= length g0 ->
  exists g, for_range s n (element_body data r s p) g0 = Ok g
    /\ length g = length g0
    /\ (forall j, v_hash (vertex_at g j)
                  = if decide (s <= j < s + n)
                    then hash (child_buffer g0 ((j - s) * Arity + p))
                    else v_hash (vertex_at g0 j))
    /\ (forall j, v_out (vertex_at g j)
                  = if decide (p <= j < p + n * Arity)
                    then v_out (vertex_at g0 j) ++ [s + (j - p) / Arity]
                    else v_out (vertex_at g0 j))
    /\ (forall j, v_in (vertex_at g j)
                  = if decide (s <= j < s + n)
                    then v_in (vertex_at g0 j) ++ seq ((j - s) * Arity + p) Arity
                    else v_in (vertex_at g0 j)).
Proof.
  intros Hr HA Hps Hsn.
  pose (P := fun (k : nat) (g : list vertex) =>
    length g = length g0
    /\ (forall j, v_hash (vertex_at g j)
                  = if decide (s <= j < s + k)
                    then hash (child_buffer g0 ((j - s) * Arity + p))
                    else v_hash (vertex_at g0 j))
    /\ (forall j, v_out (vertex_at g j)
                  = if decide (p <= j < p + k * Arity)
                    then v_out (vertex_at g0 j) ++ [s + (j - p) / Arity]
                    else v_out (vertex_at g0 j))
    /\ (forall j, v_in (vertex_at g j)
                  = if decide (s <= j < s + k)
                    then v_in (vertex_at g0 j) ++ seq ((j - s) * Arity + p) Arity
                    else v_in (vertex_at g0 j))).
  apply (for_range_inv P s n (element_body data r s p) g0).
  - unfold P. repeat split; try done; intros j; case_decide; (lia || done).
  - intros k g Hk (Hl & Hh & Ho & Hi).
    assert (Hsub : s + k - s = k) by lia.
    destruct (element_body_upper data r s p g (s + k) Hr)
      as (g1 & Hb & Hl1 & Hh1 & Ho1 & Hi1); [rewrite Hsub; nia|lia|].
    rewrite Hsub in *.
    exists g1. split; [done|]. unfold P. split; [lia|]. split; [|split].
    + intros j. rewrite Hh1, Hh. case_decide as Hj.
      * subst j. rewrite decide_True by lia. rewrite Hsub. f_equal.
        apply child_buffer_ext. intros i Hi'. rewrite Hh.
        rewrite decide_False; [done|nia].
      * repeat case_decide; (lia || done).
    + intros j. rewrite Ho1, Ho. case_decide as Hj.
      * rewrite decide_False by nia. rewrite decide_True by nia.
        do 2 f_equal. rewrite (div_in_block Arity (j - p) k); [done|nia].
      * repeat case_decide; (nia || done).
    + intros j. rewrite Hi1, Hi. case_decide as Hj.
      * subst j. rewrite decide_False by lia. rewrite decide_True by lia.
        by rewrite Hsub.
      * repeat case_decide; (lia || done).
Qed.

(** ** Row arithmetic *)

Lemma row_size_S n r : row_size n (S r) = row_size n r / Arity.
Proof. done. Qed.

Lemma row_size_mul_le n r : row_size n (S r) * Arity <= row_size n r.
Proof. rewrite row_size_S, Nat.mul_comm. apply Nat.Div0.mul_div_le. Qed.

Lemma row_start_mono n r r' : r <= r' -> row_start n r <= row_start n r'.
Proof. induction 1; simpl; lia. Qed.

Lemma row_size_shift n r : row_size (n / Arity) r = row_size n (S r).
Proof. unfold row_size. by rewrite Nat.iter_succ_r. Qed.

Lemma row_start_shift n r : row_start n (S r) = n + row_start (n / Arity) r.
Proof.
  induction r as [|r IH]; [simpl; unfold row_size; simpl; lia|].
  change (row_start n (S (S r))) with (row_start n (S r) + row_size n (S r)).
  rewrite IH, <- row_size_shift. simpl. lia.
Qed.

Lemma len_from_row_start R n : utilities.len_from R n Arity = row_start n R.
Proof.
  revert n. induction R as [|R IH]; intros n; [done|].
  rewrite row_start_shift. simpl. by rewrite IH.
Qed.

Lemma in_row_below n r r' j : in_row n r j -> r < r' -> j < row_start n r'.
Proof.
  intros [_ Hj] Hr. pose proof (row_start_mono n (S r) r' Hr). simpl in *. lia.
Qed.

Lemma in_row_inj n r r' j : in_row n r j -> in_row n r' j -> r = r'.
Proof.
  intros H H'. destruct (Nat.lt_trichotomy r r') as [Hlt|[Heq|Hlt]]; [|done|].
  - pose proof (in_row_below _ _ _ _ H Hlt). destruct H'. lia.
  - pose proof (in_row_below _ _ _ _ H' Hlt). destruct H. lia.
Qed.

Lemma in_row_find n R j : j < row_start n R -> exists r, r < R /\ in_row n r j.
Proof.
  induction R as [|R IH]; simpl; [lia|]. intros Hj.
  destruct (decide (j < row_start n R)) as [Hlt|Hge].
  - destruct (IH Hlt) as (r & Hr & Hin). exists r. split; [lia|done].
  - exists R. split; [lia|]. unfold in_row. lia.
Qed.

(** The children of a node of row [S r] lie in row [r]. *)
Lemma first_child_in_row n r j i :
  in_row n (S r) j -> i < Arity ->
  in_row n r (first_child n (S r) j + i)
  /\ first_child n (S r) j + i - row_start n r < row_size n (S r) * Arity.
Proof.
  intros [Hlo Hhi] Hi. unfold first_child, in_row. simpl Nat.pred.
  pose proof (row_size_mul_le n r) as Hle.
  change (row_start n (S r)) with (row_start n r + row_size n r) in *.
  set (x := j - (row_start n r + row_size n r)).
  assert (Hx : S x <= row_size n (S r)) by (unfold x; lia).
  apply (Nat.mul_le_mono_r _ _ Arity) in Hx. lia.
Qed.

(** ** The graph allocated before the row loop *)

Lemma add_vertex_length (g : graph_t) : length (add_vertex g) = S (length g).
Proof. unfold add_vertex. rewrite length_app. simpl. lia. Qed.

Lemma add_vertex_at (g : graph_t) j : vertex_at (add_vertex g) j = vertex_at g j.
Proof. apply (vertex_at_pad g 1). Qed.

Lemma add_vertex_iter n :
  length (Nat.iter n add_vertex []) = n
  /\ forall j, vertex_at (Nat.iter n add_vertex []) j = default_vertex.
Proof.
  induction n as [|n [IHl IHv]]; simpl.
  - split; [done|]. intros j. apply vertex_at_ge. simpl. lia.
  - split; [by rewrite add_vertex_length, IHl|].
    intros j. by rewrite add_vertex_at.
Qed.

(** ** The row loop *)

Lemma first_child_code n R j :
  (j - row_start n (S R)) * Arity + row_start n R = first_child n (S R) j.
Proof. unfold first_child. simpl Nat.pred. lia. Qed.

Lemma row_body_leaf data L st :
  rows_done data L 0 st -> row_start (length data) 1 <= L ->
  exists st', row_body data st 0 = Ok st' /\ rows_done data L 1 st'.
Proof.
  intros Hd HL. destruct st as [g pv sv lv].
  destruct Hd as [Hp Hs Hl Hlen Hlh Hnh Hin Hina Hout Houta].
  simpl in *. change (row_size (length data) 0) with (length data) in *.
  subst pv sv lv. unfold row_body; simpl.
  destruct (leaf_row_ok data g) as (g1 & Hrun & Hl1 & Hh1 & Hh1' & Ho1 & Hi1); [lia|].
  rewrite Hrun. simpl. eexists; split; [done|].
  constructor; simpl; try done.
  - lia.
  - intros j a _. apply Hh1.
  - intros r j Hr. lia.
  - intros r j Hr _. assert (r = 0) as -> by lia. simpl.
    rewrite Hi1. apply Hina. lia.
  - intros j _. rewrite Hi1. apply Hina. lia.
  - intros r j Hr _. rewrite Ho1. apply Houta. lia.
  - intros j _. rewrite Ho1. apply Houta. lia.
Qed.

Lemma row_body_upper data L R st :
  0 < Arity ->
  rows_done data L (S R) st -> row_start (length data) (S (S R)) <= L ->
  exists st', row_body data st (S R) = Ok st' /\ rows_done data L (S (S R)) st'.
Proof.
  intros HA Hd HL. destruct st as [g pv sv lv].
  destruct Hd as [Hp Hs Hl Hlen Hlh Hnh Hin Hina Hout Houta].
  cbn [prev_layer_element start_layer_element layer_elements ls_graph Nat.pred] in *.
  pose proof (row_size_mul_le (length data) R) as Hmul.
  assert (HsS : row_start (length data) (S R)
                = row_start (length data) R + row_size (length data) R) by done.
  assert (HsSS : row_start (length data) (S (S R))
                 = row_start (length data) (S R) + row_size (length data) (S R))
    by done.
  subst pv sv lv. unfold row_body.
  cbn [prev_layer_element start_layer_element layer_elements ls_graph].
  destruct (upper_row_ok data (S R) (row_start (length data) (S R)) (row_start (length data) R)
              (row_size (length data) (S R)) g)
    as (g1 & Hrun & Hl1 & Hh1 & Ho1 & Hi1); [done|done|lia|lia|].
  rewrite Hrun. simpl mbind. unfold result_mbind, result_bind.
  eexists; split; [done|].
  assert (Hkeep : forall j, j < row_start (length data) (S R) ->
            v_hash (vertex_at g1 j) = v_hash (vertex_at g j)).
  { intros j Hj. rewrite Hh1. rewrite decide_False; [done|lia]. }
  constructor; cbn [prev_layer_element start_layer_element layer_elements ls_graph Nat.pred].
  - done.
  - done.
  - done.
  - lia.
  - intros j a _ Ha. rewrite Hkeep; [apply Hlh; [lia|done]|].
    apply lookup_lt_Some in Ha.
    pose proof (row_start_mono (length data) 1 (S R)) as Hm. simpl in Hm.
    change (row_size (length data) 0) with (length data) in Hm. lia.
  - intros r j Hr Hj. destruct (decide (r = S R)) as [->|Hne].
    + rewrite Hh1. rewrite decide_True by (destruct Hj; lia).
      rewrite first_child_code. f_equal.
      apply child_buffer_ext. intros i Hi. symmetry. apply Hkeep.
      destruct (first_child_in_row _ R j i Hj Hi) as [[_ Hc] _]. lia.
    + assert (Hlt : j < row_start (length data) (S R)) by (apply (in_row_below _ r _ _ Hj); lia).
      rewrite Hkeep by done. rewrite (Hnh r j) by (done || lia). f_equal.
      apply child_buffer_ext. intros i Hi. symmetry. apply Hkeep.
      destruct r as [|r]; [lia|].
      destruct (first_child_in_row (length data) r j i Hj Hi) as [[_ Hc] _].
      pose proof (row_start_mono (length data) (S r) (S R)) as Hm. simpl in Hm. lia.
  - intros r j Hr Hj. rewrite Hi1. destruct (decide (r = S R)) as [->|Hne].
    + rewrite decide_True by (destruct Hj; lia).
      rewrite Hina by (destruct Hj; lia). by rewrite first_child_code.
    + assert (Hlt : j < row_start (length data) (S R)) by (apply (in_row_below _ r _ _ Hj); lia).
      rewrite decide_False by lia. apply Hin; [lia|done].
  - intros j Hj. rewrite Hi1. rewrite decide_False by lia. apply Hina. lia.
  - intros r j Hr Hj. rewrite Ho1.
    destruct (decide (r = S R)) as [->|Hne]; [|destruct (decide (r = R)) as [->|Hne']].
    + rewrite decide_False by (destruct Hj; lia).
      rewrite decide_False by lia. apply Houta. destruct Hj; lia.
    + rewrite (Hout R j) by (done || lia). rewrite (decide_False (P := S R < S R /\ _)) by lia.
      destruct Hj as [Hlo Hhi]. case_decide as Hblk.
      * rewrite decide_True by lia. done.
      * rewrite decide_False by lia. done.
    + assert (Hlt : j < row_start (length data) R) by (apply (in_row_below _ r _ _ Hj); lia).
      rewrite decide_False by lia. rewrite (Hout r j) by (done || lia).
      repeat case_decide; (lia || done).
  - intros j Hj. rewrite Ho1. rewrite decide_False by lia. apply Houta. lia.
Qed.

Lemma rows_ok data L R (g0 : graph_t) :
  0 < Arity ->
  row_start (length data) R <= L ->
  length g0 = L ->
  (forall j, vertex_at g0 j = default_vertex) ->
  exists st, for_range 0 R (row_body data) (LayerState g0 0 0 (length data)) = Ok st
    /\ rows_done data L R st.
Proof.
  intros HA HL Hlen Hdef.
  apply (for_range_inv (rows_done data L) 0 R (row_body data)).
  - constructor; simpl; try done; try (intros; lia); intros; by rewrite Hdef.
  - intros k st Hk Hd. simpl.
    pose proof (row_start_mono (length data) (S k) R Hk) as Hm.
    destruct k as [|k].
    + apply row_body_leaf; [done|lia].
    + apply row_body_upper; [done|done|lia].
Qed.

(** ** The constructor *)

Lemma row_count_from_pos fuel cur : 0 < utilities.row_count_from fuel cur Arity.
Proof. destruct fuel; simpl; [lia|]. destruct (cur <=? 1); lia. Qed.

Lemma ctor_assert (data : list Hashable) :
  0 < Arity -> NDEBUG = false -> length data mod Arity <> 0 ->
  MerkleTree_ctor data = Err InvalidLeafCount.
Proof.
  intros HA Hn Hmod. unfold MerkleTree_ctor. rewrite Hn.
  destruct (Nat.eqb_spec Arity 0); [lia|].
  by destruct (Nat.eqb_spec (length data mod Arity) 0).
Qed.

Lemma ctor_ok (data : list Hashable) :
  0 < Arity -> NDEBUG = true \/ length data mod Arity = 0 ->
  exists t, MerkleTree_ctor data = Ok t /\ tree_shape data t.
Proof.
  intros HA Hmod. unfold MerkleTree_ctor.
  destruct (Nat.eqb_spec Arity 0); [lia|].
  assert (negb NDEBUG && negb (length data mod Arity =? 0) = false) as ->.
  { destruct Hmod as [Hn|Hmod]; [by rewrite Hn|].
    apply Nat.eqb_eq in Hmod. rewrite Hmod. apply andb_false_r. }
  set (R := utilities.get_merkle_tree_row_count (length data) Arity).
  set (L := utilities.get_merkle_tree_len (length data) Arity).
  assert (HL : L = row_start (length data) R) by apply len_from_row_start.
  assert (HR : 0 < R) by apply row_count_from_pos.
  destruct (add_vertex_iter L) as [Hlen Hdef].
  destruct (rows_ok data L R (Nat.iter L add_vertex []))
    as (st & Hrun & Hd); [done|lia|done|done|].
  rewrite Hrun. simpl mbind. unfold result_mbind, result_bind.
  eexists; split; [done|].
  destruct Hd as [Hp Hs Hl Hlen' Hlh Hnh Hin Hina Hout Houta].
  constructor; simpl; try done.
  intros j a. by apply Hlh.
Qed.

Lemma ctor_inv (data : list Hashable) t :
  0 < Arity -> MerkleTree_ctor data = Ok t ->
  (NDEBUG = false -> length data mod Arity = 0) /\ tree_shape data t.
Proof.
  intros HA Ht.
  destruct (decide (NDEBUG = true \/ length data mod Arity = 0)) as [Hmod|Hmod].
  - split; [|destruct (ctor_ok data HA Hmod) as (t' & Ht' & Hs); congruence].
    intros Hd. destruct Hmod as [Hn|Hmod]; [congruence|done].
  - rewrite ctor_assert in Ht; [done|done| |].
    + apply not_true_is_false. intros Hn. apply Hmod. by left.
    + intros Hz. apply Hmod. by right.
Qed.

(** ** Reading a built tree *)

(** From [Ht : MerkleTree_ctor data = Ok t], the shape of [t] as [Hs]. *)
Ltac built data t Hs :=
  let Hmod := fresh "Hmod" in
  destruct (ctor_inv data t) as [Hmod Hs]; [lia|done|].

Lemma shape_in_range data t r j :
  tree_shape data t -> r < row_count t -> in_row (length data) r j ->
  j < length (Tree t).
Proof.
  intros Hs Hr Hj. rewrite (shape_length _ _ Hs), (shape_len _ _ Hs).
  by apply (in_row_below _ r).
Qed.

Lemma shape_find data t j :
  tree_shape data t -> j < len t ->
  exists r, r < row_count t /\ in_row (length data) r j.
Proof. intros Hs Hj. apply in_row_find. by rewrite <- (shape_len _ _ Hs). Qed.

Lemma operator_index_lt t j :
  j < length (Tree t) -> operator_index t j = Ok (v_hash (vertex_at (Tree t) j)).
Proof. apply hash_map_get_lt. Qed.

Lemma children_digests_lookup (g : graph_t) base k :
  k < Arity ->
  children_digests g base !! k = Some (v_hash (vertex_at g (base + k))).
Proof.
  intros Hk. unfold children_digests.
  change (map ?f ?l) with (f <$> l). rewrite list_lookup_fmap.
  by rewrite lookup_seq_lt.
Qed.

(** C1: in a tree built from a leaf count that is a positive multiple of
    the arity, the digest of leaf [i] is the hash of the serialized leaf,
    and the digest of every node [j] of a row [r > 0] is the hash of the
    buffer holding, in increasing order of index, the digests of the
    [Arity] contiguous nodes of row [r - 1] that start at offset
    [(j - rowStart r) * Arity] from [rowStart (r - 1)]; the buffer has
    [Arity * element_size] bytes.  Every node index lies in one row. *)
Theorem C1_build_digests (data : list Hashable) :
  2 <= Arity -> length data mod Arity = 0 -> Arity <= length data ->
  exists t, MerkleTree_ctor data = Ok t
    /\ (forall i a, data !! i = Some a ->
          operator_index t i = Ok (hash (serialize a)))
    /\ (forall j, j < get_len t ->
          exists r, r < get_row_count t /\ in_row (length data) r j)
    /\ (forall r j, 0 < r < get_row_count t -> in_row (length data) r j ->
          exists ds,
            length ds = Arity
            /\ (forall k, k < Arity ->
                  exists d, ds !! k = Some d
                    /\ operator_index t
                         (row_start (length data) (r - 1)
                          + (j - row_start (length data) r) * Arity + k) = Ok d)
            /\ length (concat (map element_bytes ds)) = Arity * element_size
            /\ operator_index t j = Ok (hash (concat (map element_bytes ds)))).
Proof.
  intros HA Hmod Hge.
  destruct (ctor_ok data) as (t & Ht & Hs); [lia|by right|].
  exists t. split; [done|]. split; [|split].
  - intros i a Ha. rewrite operator_index_lt.
    + by rewrite (shape_leaf_hash _ _ Hs i a).
    + apply (shape_in_range data t 0 i Hs).
      * rewrite (shape_row_count _ _ Hs). apply row_count_from_pos.
      * apply lookup_lt_Some in Ha. unfold in_row. simpl.
        change (row_size (length data) 0) with (length data). lia.
  - intros j Hj. by apply shape_find.
  - intros r j Hr Hj. unfold get_row_count in Hr.
    exists (children_digests (Tree t) (first_child (length data) r j)).
    split; [unfold children_digests; by rewrite length_map, length_seq|].
    split; [|split].
    + intros k Hk. eexists. split; [by apply children_digests_lookup|].
      destruct r as [|r]; [lia|].
      destruct (first_child_in_row _ r j k Hj Hk) as [Hc _].
      replace (S r - 1) with r by lia.
      change (row_start (length data) r + (j - row_start (length data) (S r)) * Arity)
        with (first_child (length data) (S r) j).
      apply operator_index_lt. apply (shape_in_range data t r _ Hs); [lia|done].
    + apply child_buffer_length.
    + rewrite operator_index_lt by (apply (shape_in_range data t r j Hs); [lia|done]).
      by rewrite (shape_node_hash _ _ Hs r j).
Qed.

(** C3 (amended): the only check of the constructor is the assertion
    that the leaf count is a multiple of the arity.  In a build with
    assertions the constructor fails with [InvalidLeafCount], whatever
    the hash, exactly when the leaf count is not a multiple of the arity;
    in a build with [NDEBUG] it fails on no input.  Whenever it does not
    fail it returns a tree with all of its [len] vertices.  That there
    are at least [Arity] leaves is not checked: a leaf count that passes
    the assertion is 0 or at least the arity. *)
Theorem C3_invalid_leaf_count (data : list Hashable) :
  2 <= Arity ->
  (NDEBUG = false -> length data mod Arity <> 0 ->
     MerkleTree_ctor data = Err InvalidLeafCount)
  /\ (NDEBUG = true \/ length data mod Arity = 0 ->
        exists t, MerkleTree_ctor data = Ok t
          /\ get_leafs t = length data /\ length (Tree t) = get_len t)
  /\ (length data mod Arity = 0 -> 0 < length data -> Arity <= length data).
Proof.
  intros HA. split; [|split].
  - apply ctor_assert. lia.
  - intros Hmod. destruct (ctor_ok data ltac:(lia) Hmod) as (t & Ht & Hs).
    exists t. split; [done|].
    split; [apply (shape_leafs _ _ Hs)|apply (shape_length _ _ Hs)].
  - intros Hmod Hpos. destruct (decide (Arity <= length data)) as [|Hlt]; [done|].
    rewrite Nat.mod_small in Hmod by lia. lia.
Qed.

(** ** Parents and children in a built tree *)

Lemma parent_of_in_row n r j :
  0 < Arity -> in_row n r j -> j - row_start n r < row_size n (S r) * Arity ->
  in_row n (S r) (parent_of n r j).
Proof.
  intros HA [Hlo Hhi] Hblk. unfold in_row, parent_of.
  assert ((j - row_start n r) / Arity < row_size n (S r)).
  { apply Nat.Div0.div_lt_upper_bound. lia. }
  lia.
Qed.

Lemma parent_of_first_child n r j k :
  in_row n (S r) j -> k < Arity ->
  parent_of n r (first_child n (S r) j + k) = j.
Proof.
  intros [Hlo Hhi] Hk. unfold parent_of, first_child. simpl Nat.pred.
  set (x := j - row_start n (S r)).
  rewrite (div_in_block Arity _ x).
  - unfold x. lia.
  - generalize (x * Arity). intros y. lia.
Qed.

Lemma parent_shape data t r j :
  tree_shape data t -> r < row_count t -> in_row (length data) r j ->
  parent t j
  = if decide (S r < row_count t
               /\ j - row_start (length data) r < row_size (length data) (S r) * Arity)
    then Ok (parent_of (length data) r j) else Err Undefined.
Proof.
  intros Hs Hr Hj. unfold parent.
  rewrite lookup_vertex_at by (by apply (shape_in_range data t r)).
  rewrite (shape_out _ _ Hs r j Hr Hj). by case_decide.
Qed.

Lemma parent_beyond t j : length (Tree t) <= j -> parent t j = Err Undefined.
Proof. intros Hj. unfold parent. by rewrite lookup_ge_None_2. Qed.

Lemma children_loop_seq (res : list (option nat)) i b m :
  i + m <= length res ->
  children_loop res i (seq b m)
  = Ok (take i res ++ map Some (seq b m) ++ drop (i + m) res).
Proof.
  revert res i b. induction m as [|m IH]; intros res i b Hlen; simpl.
  - by rewrite Nat.add_0_r, take_drop.
  - destruct (Nat.ltb_spec i (length res)); [|lia].
    rewrite IH by (rewrite length_insert; lia). f_equal.
    rewrite (take_S_r _ _ (Some b)) by (apply list_lookup_insert_eq; lia).
    rewrite take_insert_ge by lia. rewrite drop_insert_lt by lia.
    rewrite <- app_assoc. simpl. replace (i + S m) with (S (i + m)) by lia. done.
Qed.

Lemma children_shape data t r j :
  tree_shape data t -> r < row_count t -> in_row (length data) r j ->
  children t j
  = Ok (if r =? 0 then replicate Arity None
        else map Some (seq (first_child (length data) r j) Arity)).
Proof.
  intros Hs Hr Hj. unfold children.
  rewrite lookup_vertex_at by (by apply (shape_in_range data t r)).
  rewrite (shape_in _ _ Hs r j Hr Hj). destruct (r =? 0); [done|].
  rewrite children_loop_seq by (rewrite length_replicate; lia). simpl.
  rewrite drop_ge by (rewrite length_replicate; lia). by rewrite app_nil_r.
Qed.

(** ** Paths to the top *)

(** Every out-edge leads to a vertex of larger index. *)
Lemma shape_upward data t j p rest :
  0 < Arity -> tree_shape data t -> j < length (Tree t) ->
  v_out (vertex_at (Tree t) j) = p :: rest ->
  j < p < length (Tree t).
Proof.
  intros HA Hs Hj Hout.
  destruct (shape_find data t j Hs) as (r & Hr & Hin);
    [by rewrite <- (shape_length _ _ Hs)|].
  rewrite (shape_out _ _ Hs r j Hr Hin) in Hout.
  case_decide as Hd; [|done]. destruct Hd as [HSr Hblk].
  injection Hout as <- _.
  pose proof (parent_of_in_row _ r j HA Hin Hblk) as Hp.
  split.
  - destruct Hin, Hp. simpl in *. lia.
  - by apply (shape_in_range data t (S r)).
Qed.

Lemma parent_path_in_range t i l :
  parent_path t i l -> Forall (fun j => j < length (Tree t)) l.
Proof.
  induction 1 as [i Hi Hp|i p l Hp Hl IH].
  - constructor; [done|constructor].
  - constructor; [|done].
    unfold parent in Hp. destruct (Tree t !! i) eqn:Hl'; [|done].
    by apply lookup_lt_Some in Hl'.
Qed.

Lemma hash_path_loop_ok data t :
  0 < Arity -> tree_shape data t ->
  forall fuel cur res,
    cur < length (Tree t) -> length (Tree t) - cur < fuel ->
    exists nodes,
      parent_path t cur (cur :: nodes)
      /\ hash_path_loop fuel (Tree t) cur res
         = Ok (res ++ map (fun j => v_hash (vertex_at (Tree t) j)) nodes).
Proof.
  intros HA Hs. induction fuel as [|fuel IH]; intros cur res Hcur Hfuel; [lia|].
  simpl. rewrite lookup_vertex_at by done.
  destruct (v_out (vertex_at (Tree t) cur)) as [|p rest] eqn:Hout.
  - exists []. split; [|by rewrite app_nil_r].
    constructor; [done|]. unfold parent. rewrite lookup_vertex_at by done.
    by rewrite Hout.
  - destruct (shape_upward data t cur p rest HA Hs Hcur Hout) as [Hlt Hp].
    rewrite hash_map_get_lt by done. simpl.
    destruct (IH p (res ++ [v_hash (vertex_at (Tree t) p)])) as (nodes & Hpath & Hrun);
      [done|lia|].
    exists (p :: nodes). split.
    + apply parent_path_step with p; [|done].
      unfold parent. rewrite lookup_vertex_at by done. by rewrite Hout.
    + rewrite Hrun. simpl. by rewrite <- app_assoc.
Qed.

Lemma hash_path_ok data t i :
  0 < Arity -> tree_shape data t -> i < length (Tree t) ->
  exists nodes,
    parent_path t i nodes
    /\ hash_path t i = Ok (map (fun j => v_hash (vertex_at (Tree t) j)) nodes).
Proof.
  intros HA Hs Hi. unfold hash_path. rewrite hash_map_get_lt by done. simpl.
  destruct (hash_path_loop_ok data t HA Hs (S (length (Tree t))) i
              [v_hash (vertex_at (Tree t) i)]) as (nodes & Hpath & Hrun); [done|lia|].
  exists (i :: nodes). by split.
Qed.

Lemma hash_path_beyond t i : length (Tree t) <= i -> hash_path t i = Err Undefined.
Proof. intros Hi. unfold hash_path. by rewrite hash_map_get_ge. Qed.

Lemma path_digests t nodes :
  Forall (fun j => j < length (Tree t)) nodes ->
  Forall2 (fun j d => operator_index t j = Ok d) nodes
    (map (fun j => v_hash (vertex_at (Tree t) j)) nodes).
Proof.
  induction 1; simpl; constructor; [by apply operator_index_lt|done].
Qed.

(** ** The row count *)

Lemma row_size_small n r : 2 <= Arity -> row_size n r <= 1 -> row_size n (S r) = 0.
Proof.
  intros HA Hr. rewrite row_size_S. apply Nat.div_small. lia.
Qed.

Lemma row_size_zero n r d : row_size n r = 0 -> row_size n (r + d) = 0.
Proof.
  intros Hr. induction d as [|d IH]; [by rewrite Nat.add_0_r|].
  replace (r + S d) with (S (r + d)) by lia.
  rewrite row_size_S, IH. apply Nat.Div0.div_0_l.
Qed.

Lemma row_size_descends n r : 2 <= Arity -> row_size n r <= n - r \/ row_size n r <= 1.
Proof.
  intros HA. induction r as [|r IH].
  - left. change (row_size n 0) with n. lia.
  - destruct (decide (row_size n r <= 1)) as [Hs|Hs].
    + right. rewrite row_size_small by done. lia.
    + left. rewrite row_size_S.
      pose proof (Nat.div_lt (row_size n r) Arity). lia.
Qed.

Lemma row_count_from_spec fuel cur m :
  m <= fuel -> row_size cur m <= 1 ->
  0 < utilities.row_count_from fuel cur Arity
  /\ row_size cur (utilities.row_count_from fuel cur Arity - 1) <= 1
  /\ forall r, r < utilities.row_count_from fuel cur Arity - 1 -> 1 < row_size cur r.
Proof.
  revert cur m. induction fuel as [|fuel IH]; intros cur m Hm Hcur; simpl.
  - assert (m = 0) as -> by lia. repeat split; [lia|done|intros; lia].
  - destruct (Nat.leb_spec cur 1) as [Hle|Hgt].
    + repeat split; [lia|done|intros; lia].
    + destruct m as [|m]; [change (row_size cur 0) with cur in Hcur; lia|].
      rewrite <- row_size_shift in Hcur.
      destruct (IH (cur / Arity) m) as (Hpos & Hlast & Hmin); [lia|done|].
      set (R := utilities.row_count_from fuel (cur / Arity) Arity) in *.
      replace (S R - 1) with (S (R - 1)) by lia.
      split; [lia|]. split; [by rewrite <- row_size_shift|].
      intros [|r] Hr; [done|]. rewrite <- row_size_shift. apply Hmin. lia.
Qed.

(** The row count is the least number of rows at which the repeated
    division has fallen to 1 or below. *)
Lemma row_count_spec n :
  2 <= Arity ->
  0 < utilities.get_merkle_tree_row_count n Arity
  /\ row_size n (utilities.get_merkle_tree_row_count n Arity - 1) <= 1
  /\ forall r, r < utilities.get_merkle_tree_row_count n Arity - 1 -> 1 < row_size n r.
Proof.
  intros HA. apply (row_count_from_spec n n n); [done|].
  destruct (row_size_descends n n HA); lia.
Qed.

Lemma row_count_reaches_one n m :
  2 <= Arity -> row_size n m = 1 ->
  row_size n (utilities.get_merkle_tree_row_count n Arity - 1) = 1.
Proof.
  intros HA Hm. destruct (row_count_spec n HA) as (Hpos & Hlast & Hmin).
  set (R := utilities.get_merkle_tree_row_count n Arity) in *.
  destruct (decide (row_size n (R - 1) = 0)) as [Hz|]; [|lia].
  destruct (decide (m < R - 1)) as [Hlt|Hge]; [specialize (Hmin m Hlt); lia|].
  pose proof (row_size_zero n (R - 1) (m - (R - 1)) Hz) as Hz'.
  replace (R - 1 + (m - (R - 1))) with m in Hz' by lia. lia.
Qed.

(** ** Leaf counts that are powers of the arity *)

Lemma perfect_row_size k r :
  0 < Arity -> r <= k -> row_size (Arity ^ k) r = Arity ^ (k - r).
Proof.
  intros HA. induction r as [|r IH]; intros Hr.
  - by rewrite Nat.sub_0_r.
  - rewrite row_size_S, IH by lia.
    replace (k - r) with (S (k - S r)) by lia.
    rewrite Nat.pow_succ_r', Nat.mul_comm. apply Nat.div_mul. lia.
Qed.

Lemma perfect_row_count k :
  2 <= Arity -> utilities.get_merkle_tree_row_count (Arity ^ k) Arity = S k.
Proof.
  intros HA. destruct (row_count_spec (Arity ^ k) HA) as (Hpos & Hlast & Hmin).
  set (R := utilities.get_merkle_tree_row_count (Arity ^ k) Arity) in *.
  destruct (Nat.lt_trichotomy (R - 1) k) as [Hlt|[Heq|Hgt]]; [|lia|].
  - rewrite perfect_row_size in Hlast by lia.
    pose proof (Nat.pow_gt_1 Arity (k - (R - 1))). lia.
  - specialize (Hmin k Hgt). rewrite perfect_row_size in Hmin by lia.
    rewrite Nat.sub_diag in Hmin. simpl in Hmin. lia.
Qed.

Lemma perfect_row_full k r :
  0 < Arity -> r < k ->
  row_size (Arity ^ k) (S r) * Arity = row_size (Arity ^ k) r.
Proof.
  intros HA Hr. rewrite !perfect_row_size by lia.
  replace (k - r) with (S (k - S r)) by lia.
  rewrite Nat.pow_succ_r'. lia.
Qed.

Lemma shape_len_pos data t : tree_shape data t -> 0 < length data -> 0 < len t.
Proof.
  intros Hs Hn. rewrite (shape_len _ _ Hs).
  pose proof (row_start_mono (length data) 1 (row_count t)) as Hm.
  rewrite (shape_row_count _ _ Hs) in *.
  pose proof (row_count_from_pos (length data) (length data)).
  unfold utilities.get_merkle_tree_row_count in *. simpl in Hm.
  change (row_size (length data) 0) with (length data) in Hm. lia.
Qed.

Lemma root_ok data t :
  tree_shape data t -> 0 < len t ->
  root t = Ok (v_hash (vertex_at (Tree t) (len t - 1))).
Proof.
  intros Hs Hlen. unfold root. destruct (len t) as [|k] eqn:Hk; [lia|].
  replace (S k - 1) with k by lia. apply hash_map_get_lt.
  rewrite (shape_length _ _ Hs). lia.
Qed.

Lemma parent_err t j e : parent t j = Err e -> e = Undefined.
Proof.
  unfold parent. destruct (Tree t !! j) as [w|]; [|congruence].
  destruct (v_out w); congruence.
Qed.

Lemma parent_inv data t j p :
  tree_shape data t -> 0 < Arity -> parent t j = Ok p ->
  exists r, S r < row_count t /\ in_row (length data) r j
    /\ p = parent_of (length data) r j /\ in_row (length data) (S r) p.
Proof.
  intros Hs HA Hp.
  destruct (decide (j < length (Tree t))) as [Hj|Hj];
    [|rewrite parent_beyond in Hp by lia; done].
  destruct (shape_find data t j Hs) as (r & Hr & Hin);
    [by rewrite <- (shape_length _ _ Hs)|].
  rewrite (parent_shape data t r j Hs Hr Hin) in Hp.
  case_decide as Hd; [|done]. destruct Hd as [HSr Hblk]. injection Hp as <-.
  exists r. split; [done|]. split; [done|]. split; [done|].
  by apply parent_of_in_row.
Qed.

Lemma perfect_parent data t k r j :
  2 <= Arity -> tree_shape data t -> length data = Arity ^ k ->
  in_row (length data) r j -> r < k ->
  parent t j = Ok (parent_of (length data) r j).
Proof.
  intros HA Hs Hk Hin Hr.
  assert (HR : row_count t = S k).
  { rewrite (shape_row_count _ _ Hs), Hk. by apply perfect_row_count. }
  rewrite (parent_shape data t r j Hs) by (done || lia).
  rewrite decide_True; [done|]. split; [lia|].
  rewrite Hk, perfect_row_full by lia. rewrite <- Hk. destruct Hin. lia.
Qed.

Lemma perfect_top data t k :
  2 <= Arity -> tree_shape data t -> length data = Arity ^ k ->
  row_count t = S k
  /\ len t = S (row_start (length data) k)
  /\ forall j, in_row (length data) k j -> j = len t - 1.
Proof.
  intros HA Hs Hk.
  assert (HR : row_count t = S k).
  { rewrite (shape_row_count _ _ Hs), Hk. by apply perfect_row_count. }
  assert (Hone : row_size (length data) k = 1).
  { rewrite Hk, perfect_row_size by lia. by rewrite Nat.sub_diag. }
  assert (HL : len t = S (row_start (length data) k)).
  { rewrite (shape_len _ _ Hs), HR. simpl. lia. }
  repeat split; try done. intros j [Hlo Hhi]. lia.
Qed.

Lemma perfect_last data t k :
  2 <= Arity -> tree_shape data t -> length data = Arity ^ k ->
  forall j l, parent_path t j l ->
  forall r, in_row (length data) r j -> r <= k ->
  last l = Some (len t - 1) /\ length l = S (k - r).
Proof.
  intros HA Hs Hk j l Hpath.
  destruct (perfect_top data t k HA Hs Hk) as (HR & HL & Htop).
  induction Hpath as [i Hi Hp|i p l Hp Hl IH]; intros r Hin Hr.
  - destruct (decide (r = k)) as [->|Hne].
    + rewrite (Htop i Hin). split; [done|]. by rewrite Nat.sub_diag.
    + rewrite (perfect_parent data t k r i) in Hp by (done || lia). done.
  - destruct (decide (r = k)) as [->|Hne].
    + rewrite (parent_shape data t k i Hs) in Hp by (done || lia).
      rewrite decide_False in Hp by lia. done.
    + destruct (parent_inv data t i p Hs) as (r' & HSr & Hin' & -> & Hpin); [lia|done|].
      assert (r' = r) as -> by (by apply (in_row_inj (length data) r' r i)).
      destruct (IH (S r) Hpin) as [Hlast Hlen]; [lia|].
      split.
      * destruct l as [|x l]; [done|]. by rewrite last_cons_cons.
      * simpl. rewrite Hlen. lia.
Qed.

Lemma leaf_in_row (n j : nat) : j < n -> in_row n 0 j.
Proof. intros Hj. unfold in_row. simpl. change (row_size n 0) with n. lia. Qed.

(** C7 (amended): [hash_path] and [operator[]] do not check their index.
    For every index below [len], whether it designates a leaf or not,
    [operator[]] returns the digest of that node and [hash_path] the
    path from that node upward: the digest of the node itself, then the
    digests of the nodes met by following [parent] until there is none.
    For an index from [len] on they read beyond the vertex vector, which
    is undefined, and no [IndexOutOfRange] error is raised. *)
Theorem C7_no_range_check (data : list Hashable) t idx :
  2 <= Arity -> Arity <= length data ->
  MerkleTree_ctor data = Ok t ->
  (idx < get_len t ->
     exists d nodes path,
       operator_index t idx = Ok d
       /\ parent_path t idx (idx :: nodes)
       /\ Forall2 (fun j e => operator_index t j = Ok e) nodes path
       /\ hash_path t idx = Ok (d :: path))
  /\ (get_len t <= idx ->
        operator_index t idx = Err Undefined /\ hash_path t idx = Err Undefined).
Proof.
  intros HA Hge Ht. unfold get_len.
  built data t Hs.
  rewrite <- (shape_length _ _ Hs). split; intros Hidx.
  - destruct (hash_path_ok data t idx) as (nodes & Hpath & Hrun); [lia|done|done|].
    pose proof (parent_path_in_range t idx nodes Hpath) as Hall.
    exists (v_hash (vertex_at (Tree t) idx)).
    inversion Hpath as [i' Hi' Hp Heq|i' p l Hp Hl Heq]; subst.
    + exists [], []. split; [by apply operator_index_lt|]. by repeat split.
    + exists l, (map (fun j => v_hash (vertex_at (Tree t) j)) l).
      split; [by apply operator_index_lt|]. split; [done|]. split; [|done].
      apply path_digests. by inversion Hall.
  - split; [by apply hash_map_get_ge|by apply hash_path_beyond].
Qed.

(** C8 (amended): in a built tree, whenever [parent] returns, it returns
    the one node of the row immediately above that has the given node
    among its children; on the final node, which has no out-edge, it
    reads the first edge of an empty range: the result is undefined and
    no [RootHasNoParent] error is raised.  When the leaf count is a power
    of the arity, [parent] returns on every node but the final one. *)
Theorem C8_parent (data : list Hashable) t :
  2 <= Arity -> Arity <= length data ->
  MerkleTree_ctor data = Ok t ->
  (forall j p, parent t j = Ok p ->
     exists r, S r < get_row_count t
       /\ in_row (length data) r j /\ in_row (length data) (S r) p
       /\ p = row_start (length data) (S r) + (j - row_start (length data) r) / Arity)
  /\ parent t (get_len t - 1) = Err Undefined
  /\ (perfect (length data) ->
        forall j, j < get_len t - 1 -> exists p, parent t j = Ok p).
Proof.
  intros HA Hge Ht. unfold get_len, get_row_count.
  built data t Hs.
  split; [|split].
  - intros j p Hp.
    destruct (parent_inv data t j p Hs) as (r & HSr & Hin & -> & Hpin); [lia|done|].
    by exists r.
  - destruct (parent t (len t - 1)) as [p|e] eqn:Hp; [|by rewrite (parent_err _ _ _ Hp)].
    destruct (parent_inv data t (len t - 1) p Hs) as (r & HSr & Hin & _ & Hpin);
      [lia|done|].
    pose proof (in_row_below _ _ (S (S r)) _ Hpin) as Hlt.
    pose proof (row_start_mono (length data) (S (S r)) (row_count t)) as Hm.
    rewrite <- (shape_len _ _ Hs) in Hm. destruct Hin as [_ Hi], Hpin as [Hlo _].
    change (row_start (length data) (S r))
      with (row_start (length data) r + row_size (length data) r) in Hlo. lia.
  - intros (k & Hk0 & Hk) j Hj.
    destruct (perfect_top data t k HA Hs Hk) as (HR & HL & Htop).
    destruct (shape_find data t j Hs) as (r & Hr & Hin); [lia|].
    destruct (decide (r = k)) as [->|Hne]; [specialize (Htop j Hin); lia|].
    eexists. apply (perfect_parent data t k r j); (done || lia).
Qed.

(** ** Validation *)

Lemma element_eqb_refl (a : element) : element_eqb a a = true.
Proof. unfold element_eqb, bytes_eqb. by rewrite bool_decide_eq_true. Qed.

Lemma validate_perfect (data : list Hashable) t i c :
  2 <= Arity -> perfect (length data) -> tree_shape data t -> i < leafs t ->
  validate t i c
  = Ok (element_eqb (hash (serialize c)) (v_hash (vertex_at (Tree t) i))).
Proof.
  intros HA (k & Hk0 & Hk) Hs Hi.
  assert (Hin0 : in_row (length data) 0 i).
  { apply leaf_in_row. by rewrite <- (shape_leafs _ _ Hs). }
  assert (Hrange : i < length (Tree t)).
  { apply (shape_in_range data t 0 _ Hs); [|done].
    rewrite (shape_row_count _ _ Hs). apply row_count_from_pos. }
  destruct (hash_path_ok data t i) as (nodes & Hpath & Hrun); [lia|done|done|].
  destruct (perfect_last data t k HA Hs Hk i nodes Hpath 0 Hin0) as [Hlast _]; [lia|].
  destruct (perfect_top data t k HA Hs Hk) as (_ & HL & _).
  unfold validate, prove. destruct (Nat.ltb_spec i (leafs t)); [|lia].
  rewrite Hrun. simpl. rewrite operator_index_lt by done. simpl.
  rewrite (root_ok data t Hs) by lia. simpl.
  change (map ?f ?l) with (f <$> l). rewrite fmap_last, Hlast. simpl.
  by rewrite element_eqb_refl, andb_true_r.
Qed.

(** In a tree built from a leaf count that is a power of the arity,
    [validate] at a leaf index returns [true] when the hash of the
    claimed element equals, byte for byte, the digest stored at that
    index, and [false] when it differs; it returns [true] for the leaf
    itself, and [false] for every value whose hash differs from that of
    the leaf. *)
Lemma validate_leaf_perfect (data : list Hashable) t leafIndex :
  2 <= Arity -> perfect (length data) ->
  MerkleTree_ctor data = Ok t -> leafIndex < get_leafs t ->
  exists stored,
    operator_index t leafIndex = Ok stored
    /\ (forall claimed,
          (element_bytes (hash (serialize claimed)) = element_bytes stored ->
             validate t leafIndex claimed = Ok true)
          /\ (element_bytes (hash (serialize claimed)) <> element_bytes stored ->
                validate t leafIndex claimed = Ok false))
    /\ (forall a, data !! leafIndex = Some a ->
          validate t leafIndex a = Ok true
          /\ forall other,
               element_bytes (hash (serialize other))
               <> element_bytes (hash (serialize a)) ->
               validate t leafIndex other = Ok false).
Proof.
  intros HA Hperf Ht Hi. unfold get_leafs in Hi.
  built data t Hs.
  assert (Hrange : leafIndex < length (Tree t)).
  { apply (shape_in_range data t 0 _ Hs).
    - rewrite (shape_row_count _ _ Hs). apply row_count_from_pos.
    - apply leaf_in_row. by rewrite <- (shape_leafs _ _ Hs). }
  exists (v_hash (vertex_at (Tree t) leafIndex)).
  split; [by apply operator_index_lt|].
  assert (Hv : forall c,
    (element_bytes (hash (serialize c))
     = element_bytes (v_hash (vertex_at (Tree t) leafIndex)) ->
     validate t leafIndex c = Ok true)
    /\ (element_bytes (hash (serialize c))
        <> element_bytes (v_hash (vertex_at (Tree t) leafIndex)) ->
        validate t leafIndex c = Ok false)).
  { intros c. rewrite (validate_perfect data t leafIndex c) by done.
    unfold element_eqb, bytes_eqb. split; intros H.
    - by rewrite bool_decide_eq_true_2.
    - by rewrite bool_decide_eq_false_2. }
  split; [done|].
  intros a Ha. rewrite (shape_leaf_hash _ _ Hs leafIndex a Ha) in Hv.
  split; [by apply Hv|]. intros other Hne. by apply Hv.
Qed.

(** ** The root *)

(** C5 (amended): in a tree built from at least one leaf, [root()]
    returns the digest stored at index [len - 1], an index of the vertex
    vector; that node has no parent, and when the leaf count is a power
    of the arity it is the root of the tree: every walk along [parent]
    ends at it. *)
Theorem C5_root (data : list Hashable) t :
  2 <= Arity -> 0 < length data ->
  MerkleTree_ctor data = Ok t ->
  exists d, root t = Ok d
    /\ operator_index t (get_len t - 1) = Ok d
    /\ get_len t - 1 < length (Tree t)
    /\ parent t (get_len t - 1) = Err Undefined
    /\ (perfect (length data) ->
          forall i nodes, parent_path t i nodes -> last nodes = Some (get_len t - 1)).
Proof.
  intros HA Hge Ht. built data t Hs.
  unfold get_len.
  assert (Hlen : 0 < len t).
  { rewrite (shape_len _ _ Hs).
    pose proof (row_start_mono (length data) 1 (row_count t)) as Hm.
    rewrite (shape_row_count _ _ Hs) in *.
    pose proof (row_count_from_pos (length data) (length data)).
    unfold utilities.get_merkle_tree_row_count in *. simpl in Hm.
    change (row_size (length data) 0) with (length data) in Hm. lia. }
  assert (Hin : len t - 1 < length (Tree t)) by (rewrite (shape_length _ _ Hs); lia).
  exists (v_hash (vertex_at (Tree t) (len t - 1))).
  split; [|split; [|split; [|split]]]; try done.
  - unfold root. destruct (len t) as [|k] eqn:Hk; [lia|].
    replace (S k - 1) with k in * by lia. by apply hash_map_get_lt.
  - by apply operator_index_lt.
  - destruct (shape_find data t (len t - 1) Hs) as (r & Hr & Hj); [lia|].
    unfold parent. rewrite lookup_vertex_at by done.
    rewrite (shape_out _ _ Hs r _ Hr Hj).
    rewrite decide_False; [done|]. intros [HSr Hblk].
    pose proof (row_start_mono (length data) (S (S r)) (row_count t) HSr) as Hm.
    rewrite <- (shape_len _ _ Hs) in Hm. destruct Hj as [Hlo Hhi].
    change (row_start (length data) (S (S r)))
      with (row_start (length data) r + row_size (length data) r
            + row_size (length data) (S r)) in Hm.
    assert (row_size (length data) (S r) = 0) as Hz by lia.
    rewrite Hz in Hblk. lia.
  - intros (k & Hk0 & Hk) i nodes Hpath.
    destruct (perfect_top data t k HA Hs Hk) as (HR & _ & _).
    assert (Hi : i < len t).
    { rewrite <- (shape_length _ _ Hs).
      pose proof (parent_path_in_range t i nodes Hpath) as Hall.
      inversion Hpath; subst; by inversion Hall. }
    destruct (shape_find data t i Hs Hi) as (r & Hr & Hrow).
    apply (perfect_last data t k HA Hs Hk i nodes Hpath r Hrow). lia.
Qed.

(** ** Row count and length of a built tree *)

Lemma row_start_sum n R : row_start n R = sum_list_with (row_size n) (seq 0 R).
Proof.
  induction R as [|R IH]; [done|].
  rewrite seq_S, sum_list_with_app. simpl. rewrite <- IH. lia.
Qed.

(** C6: the row count of a built tree is the least number of rows at
    which the repeated division of the leaf count by the arity has
    reached 1, and its length is the sum of the element counts of its
    rows; 8 leaves with arity 2 give 4 rows and 15 nodes, 9 leaves with
    arity 3 give 3 rows and 13 nodes. *)
Theorem C6_row_arithmetic (data : list Hashable) t :
  2 <= Arity -> MerkleTree_ctor data = Ok t ->
  (forall m, row_size (length data) m = 1 ->
     row_size (length data) (get_row_count t - 1) = 1
     /\ forall r, r < get_row_count t - 1 -> row_size (length data) r <> 1)
  /\ get_len t = sum_list_with (row_size (length data)) (seq 0 (get_row_count t))
  /\ (Arity = 2 -> length data = 8 -> get_row_count t = 4 /\ get_len t = 15)
  /\ (Arity = 3 -> length data = 9 -> get_row_count t = 3 /\ get_len t = 13).
Proof.
  intros HA Ht. unfold get_row_count, get_len.
  built data t Hs.
  pose proof (shape_row_count _ _ Hs) as HR. pose proof (shape_len _ _ Hs) as HL.
  split; [|split; [|split]].
  - intros m Hm. rewrite HR. split; [by apply (row_count_reaches_one _ m)|].
    intros r Hr. destruct (row_count_spec (length data) HA) as (_ & _ & Hmin).
    specialize (Hmin r Hr). lia.
  - rewrite HL. apply row_start_sum.
  - intros H2 H8. rewrite HL, HR, H8, H2.
    change (utilities.get_merkle_tree_row_count 8 2) with 4.
    split; [done|]. cbv [row_start row_size Nat.iter nat_rect]. by rewrite H2.
  - intros H3 H9. rewrite HL, HR, H9, H3.
    change (utilities.get_merkle_tree_row_count 9 3) with 3.
    split; [done|]. cbv [row_start row_size Nat.iter nat_rect]. by rewrite H3.
Qed.

(** ** What a call can change *)

Lemma run_frame c t v t1 :
  run c t = Ok (v, t1) ->
  (is_assign c = false -> t1 = t)
  /\ leafs t1 = leafs t /\ len t1 = len t /\ row_count t1 = row_count t
  /\ length (Tree t1) = length (Tree t)
  /\ (forall j, v_out (vertex_at (Tree t1) j) = v_out (vertex_at (Tree t) j))
  /\ (forall j, v_in (vertex_at (Tree t1) j) = v_in (vertex_at (Tree t) j))
  /\ (forall j, (forall d, c <> CallIndexAssign j d) ->
        v_hash (vertex_at (Tree t1) j) = v_hash (vertex_at (Tree t) j)).
Proof.
  destruct c as [|idx|idx|idx|idx|idx d| | |]; simpl; intros Hrun.
  6: {
    unfold operator_index_assign in Hrun.
    destruct (decide (idx < length (Tree t))) as [Hidx|Hidx];
      [|rewrite hash_map_set_ge in Hrun by lia; done].
    destruct (hash_map_set_lt (Tree t) idx d Hidx) as (g & Hset & Hlen & Hh & Ho & Hi).
    rewrite Hset in Hrun. simpl in Hrun. injection Hrun as _ <-. simpl.
    repeat split; try done.
    intros j Hj. rewrite Hh. case_decide as Hji; [|done].
    subst j. by destruct (Hj d). }
  all: assert (t1 = t) as ->;
    [ revert Hrun;
      repeat match goal with
             | |- context [root ?x] => destruct (root x)
             | |- context [children ?x ?i] => destruct (children x i)
             | |- context [parent ?x ?i] => destruct (parent x i)
             | |- context [hash_path ?x ?i] => destruct (hash_path x i)
             | |- context [operator_index ?x ?i] => destruct (operator_index x i)
             end; simpl; congruence
    | by repeat split ].
Qed.

Lemma run_all_frame cs t t' :
  run_all cs t = Ok t' ->
  (forallb (fun c => negb (is_assign c)) cs = true -> t' = t)
  /\ leafs t' = leafs t /\ len t' = len t /\ row_count t' = row_count t
  /\ length (Tree t') = length (Tree t)
  /\ (forall j, v_out (vertex_at (Tree t') j) = v_out (vertex_at (Tree t) j))
  /\ (forall j, v_in (vertex_at (Tree t') j) = v_in (vertex_at (Tree t) j))
  /\ (forall j, (forall d, CallIndexAssign j d ∉ cs) ->
        v_hash (vertex_at (Tree t') j) = v_hash (vertex_at (Tree t) j)).
Proof.
  revert t. induction cs as [|c cs IH]; intros t; simpl.
  - intros [= <-]. by repeat split.
  - destruct (run c t) as [[v t1]|e] eqn:Hc; [|done]. intros Hrun.
    destruct (run_frame c t v t1 Hc) as (H1 & H2 & H3 & H4 & H5 & H6 & H7 & H8).
    destruct (IH t1 Hrun) as (I1 & I2 & I3 & I4 & I5 & I6 & I7 & I8).
    split.
    { intros Hall. apply andb_prop in Hall as [Hc' Hcs].
      rewrite I1 by done. apply H1. by destruct (is_assign c). }
    split; [congruence|]. split; [congruence|]. split; [congruence|].
    split; [congruence|].
    split; [intros j; by rewrite I6|]. split; [intros j; by rewrite I7|].
    intros j Hj. rewrite I8, H8; [done| |].
    + intros d ->. apply (Hj d). left.
    + intros d Hd. apply (Hj d). by right.
Qed.

Lemma same_lookup (g g' : graph_t) j :
  length g' = length g ->
  match g' !! j, g !! j with
  | Some w', Some w => w' = vertex_at g' j /\ w = vertex_at g j
  | None, None => True
  | _, _ => False
  end.
Proof.
  intros Hlen. destruct (decide (j < length g)) as [Hj|Hj].
  - rewrite !lookup_vertex_at by lia. done.
  - rewrite !lookup_ge_None_2 by lia. done.
Qed.

(** C9 (amended): no member function writes to the tree: [root],
    [children], [parent], [hash_path], reading [operator[]] and the
    getters leave it as it is.  [operator[]] returns a mutable
    reference: through any sequence of calls and assignments through
    such references the sizes, the edges, and so the results of [parent]
    and [children], stay the same, and so does every digest whose index
    is not assigned to. *)
Theorem C9_only_index_assigns (t t' : MerkleTree) (cs : list call) :
  run_all cs t = Ok t' ->
  (forallb (fun c => negb (is_assign c)) cs = true -> t' = t)
  /\ get_leafs t' = get_leafs t /\ get_len t' = get_len t
  /\ get_row_count t' = get_row_count t
  /\ (forall j, parent t' j = parent t j /\ children t' j = children t j)
  /\ (forall j, (forall d, CallIndexAssign j d ∉ cs) ->
        operator_index t' j = operator_index t j).
Proof.
  intros Hrun.
  destruct (run_all_frame cs t t' Hrun) as (H1 & H2 & H3 & H4 & H5 & H6 & H7 & H8).
  split; [done|]. split; [done|]. split; [done|]. split; [done|]. split.
  - intros j. pose proof (same_lookup (Tree t) (Tree t') j H5) as Hl.
    unfold parent, children.
    destruct (Tree t' !! j) as [w'|], (Tree t !! j) as [w|]; try done.
    destruct Hl as [-> ->]. by rewrite H6, H7.
  - intros j Hj. pose proof (same_lookup (Tree t) (Tree t') j H5) as Hl.
    unfold operator_index, hash_map_get.
    destruct (Tree t' !! j) as [w'|], (Tree t !! j) as [w|]; try done.
    destruct Hl as [-> ->]. by rewrite H8.
Qed.

(** ** Further properties of the code *)

(** X1: [hash_digest_size] is the least number of bytes that hold
    [digest_bits] bits; it is [digest_bits / 8], the number of bytes of
    a digest, exactly when [digest_bits] is a multiple of 8. *)
Theorem X1_hash_digest_size_ceiling (digest_bits : nat) :
  digest_bits <= 8 * hash_digest_size digest_bits < digest_bits + 8
  /\ (hash_digest_size digest_bits = digest_bits / 8 <-> digest_bits mod 8 = 0).
Proof.
  unfold hash_digest_size.
  pose proof (Nat.div_mod_eq digest_bits 8) as Hdm.
  pose proof (Nat.mod_upper_bound digest_bits 8) as Hub.
  destruct (Nat.eqb_spec (digest_bits mod 8) 0); lia.
Qed.

(** X2: the graph the constructor leaves has exactly [len] vertices (no
    edge insertion ever grew it) and is a forest drawn upward: a vertex
    has at most one out-edge, which leads to a larger index below [len];
    a vertex of the leaf row has no in-edge, every other vertex has
    exactly [Arity] in-edges, all from smaller indices. *)
Theorem X2_forest (data : list Hashable) t :
  2 <= Arity -> MerkleTree_ctor data = Ok t ->
  get_leafs t = length data
  /\ length (Tree t) = get_len t
  /\ forall j w, Tree t !! j = Some w ->
       length (v_out w) <= 1
       /\ (forall p, p ∈ v_out w -> j < p < get_len t)
       /\ (j < get_leafs t -> v_in w = [])
       /\ (get_leafs t <= j ->
             length (v_in w) = Arity /\ forall c, c ∈ v_in w -> c < j).
Proof.
  intros HA Ht. unfold get_leafs, get_len. built data t Hs.
  split; [apply (shape_leafs _ _ Hs)|]. split; [apply (shape_length _ _ Hs)|].
  intros j w Hw. pose proof (lookup_lt_Some _ _ _ Hw) as Hj.
  apply vertex_at_lookup in Hw. subst w.
  destruct (shape_find data t j Hs) as (r & Hr & Hin);
    [by rewrite <- (shape_length _ _ Hs)|].
  rewrite (shape_out _ _ Hs r j Hr Hin), (shape_in _ _ Hs r j Hr Hin).
  rewrite (shape_leafs _ _ Hs).
  split; [case_decide; simpl; lia|]. split; [|split].
  - intros p Hp. case_decide as Hd; [|by apply elem_of_nil in Hp].
    apply list_elem_of_singleton in Hp as ->. destruct Hd as [HSr Hblk].
    pose proof (parent_of_in_row _ r j ltac:(lia) Hin Hblk) as Hpin.
    split.
    + destruct Hin as [_ Hhi], Hpin as [Hlo _].
      change (row_start (length data) (S r))
        with (row_start (length data) r + row_size (length data) r) in Hlo. lia.
    + rewrite <- (shape_length _ _ Hs). by apply (shape_in_range data t (S r)).
  - intros Hleaf. destruct r as [|r]; [done|].
    pose proof (in_row_below _ 0 (S r) j (leaf_in_row _ _ Hleaf)) as Hlt.
    destruct Hin as [Hlo _]. lia.
  - intros Hup. destruct r as [|r].
    { destruct Hin as [_ Hhi]. simpl in Hhi.
      change (row_size (length data) 0) with (length data) in Hhi. lia. }
    simpl. split; [apply length_seq|].
    intros c Hc. apply elem_of_seq in Hc.
    destruct (first_child_in_row _ r j (c - first_child (length data) (S r) j) Hin)
      as [[_ Hc'] _]; [lia|].
    destruct Hin as [Hlo _].
    change (row_start (length data) (S r))
      with (row_start (length data) r + row_size (length data) r) in Hlo. lia.
Qed.

(** X3: in a built tree [children] of a node of the leaf row writes no
    cell of its result, which stays uninitialised, and raises no error;
    [children] of a node [j] of a row [r > 0] returns the [Arity]
    consecutive indices from [rowStart (r-1) + (j - rowStart r) * Arity]
    on, in increasing order; beyond the vertices the read is undefined. *)
Theorem X3_children (data : list Hashable) t :
  2 <= Arity -> MerkleTree_ctor data = Ok t ->
  (forall j, j < get_leafs t -> children t j = Ok (replicate Arity None))
  /\ (forall r j, 0 < r < get_row_count t -> in_row (length data) r j ->
        children t j
        = Ok (map Some
                (seq (row_start (length data) (r - 1)
                      + (j - row_start (length data) r) * Arity) Arity)))
  /\ (forall j, get_len t <= j -> children t j = Err Undefined).
Proof.
  intros HA Ht. unfold get_leafs, get_len, get_row_count. built data t Hs.
  split; [|split].
  - intros j Hj. rewrite (shape_leafs _ _ Hs) in Hj.
    rewrite (children_shape data t 0 j Hs); [done| |by apply leaf_in_row].
    rewrite (shape_row_count _ _ Hs). apply row_count_from_pos.
  - intros r j Hr Hin. rewrite (children_shape data t r j Hs) by (lia || done).
    destruct r as [|r]; [lia|]. simpl. unfold first_child. simpl Nat.pred.
    by rewrite Nat.sub_0_r.
  - intros j Hj. unfold children. rewrite lookup_ge_None_2; [done|].
    by rewrite (shape_length _ _ Hs).
Qed.

(** ** Paths, one step at a time *)

Lemma parent_path_fun t i l l' :
  parent_path t i l -> parent_path t i l' -> l = l'.
Proof.
  intros Hl. revert l'. induction Hl as [i Hi Hp|i p l Hp Hl IH]; intros l' Hl'.
  - inversion Hl' as [|? p' ? Hp']; subst; [done|congruence].
  - inversion Hl' as [? ? Hp'|? p' l'' Hp' Hl'']; subst; [congruence|].
    assert (p' = p) as -> by congruence. f_equal. by apply IH.
Qed.

Lemma parent_path_length data t i l r :
  0 < Arity -> tree_shape data t -> parent_path t i l ->
  in_row (length data) r i -> r < row_count t ->
  r + length l <= row_count t.
Proof.
  intros HA Hs Hl. revert r. induction Hl as [i Hi Hp|i p l Hp Hl IH]; intros r Hin Hr.
  - simpl. lia.
  - destruct (parent_inv data t i p Hs HA Hp) as (r' & HSr & Hin' & _ & Hpin).
    assert (r' = r) as -> by (by apply (in_row_inj (length data) r' r i)).
    specialize (IH (S r) Hpin HSr). simpl. lia.
Qed.

(** X4: in a built tree the path of a node that has a parent is its own
    digest followed by the path of its parent, and the path of a node
    without parent is its own digest alone; so [hash_path] of the final
    node is [root()] alone.  A path is never empty and never longer than
    the number of rows. *)
Theorem X4_hash_path_steps (data : list Hashable) t i :
  2 <= Arity -> Arity <= length data ->
  MerkleTree_ctor data = Ok t -> i < get_len t ->
  exists d path,
    operator_index t i = Ok d
    /\ hash_path t i = Ok (d :: path)
    /\ S (length path) <= get_row_count t
    /\ (forall p, parent t i = Ok p -> hash_path t p = Ok path)
    /\ (parent t i = Err Undefined -> path = [])
    /\ (i = get_len t - 1 -> path = [] /\ root t = Ok d).
Proof.
  intros HA Hge Ht Hi. unfold get_len, get_row_count in *. built data t Hs.
  assert (Hrange : i < length (Tree t)) by (by rewrite (shape_length _ _ Hs)).
  destruct (hash_path_ok data t i) as (nodes & Hpath & Hrun); [lia|done|done|].
  destruct (shape_find data t i Hs Hi) as (r & Hr & Hin).
  pose proof (parent_path_length data t i nodes r ltac:(lia) Hs Hpath Hin Hr) as Hlen.
  assert (Hno : parent t (len t - 1) = Err Undefined).
  { destruct (parent t (len t - 1)) as [p|e] eqn:Hp; [|by rewrite (parent_err _ _ _ Hp)].
    destruct (parent_inv data t (len t - 1) p Hs) as (r' & HSr & Hin' & _ & Hpin);
      [lia|done|].
    pose proof (in_row_below _ _ (S (S r')) _ Hpin) as Hlt.
    pose proof (row_start_mono (length data) (S (S r')) (row_count t)) as Hm.
    rewrite <- (shape_len _ _ Hs) in Hm. destruct Hin' as [_ Hi'], Hpin as [Hlo _].
    change (row_start (length data) (S r'))
      with (row_start (length data) r' + row_size (length data) r') in Hlo. lia. }
  inversion Hpath as [i' Hi' Hp Heq|i' p l Hp Hl Heq]; subst.
  - exists (v_hash (vertex_at (Tree t) i)), []. simpl in *.
    split; [by apply operator_index_lt|]. split; [done|]. split; [lia|].
    split; [intros p Hp'; congruence|]. split; [done|].
    intros ->. split; [done|]. apply (root_ok data t Hs). lia.
  - exists (v_hash (vertex_at (Tree t) i)),
      (map (fun j => v_hash (vertex_at (Tree t) j)) l). simpl in *.
    split; [by apply operator_index_lt|]. split; [done|].
    split; [rewrite length_map; lia|].
    split; [|split].
    + intros p' Hp'. assert (p' = p) as -> by congruence.
      destruct (hash_path_ok data t p) as (nodes' & Hpath' & Hrun'); [lia|done| |].
      { pose proof (parent_path_in_range t p l Hl) as Hall.
        inversion Hl; subst; by inversion Hall. }
      by rewrite (parent_path_fun t p l nodes' Hl Hpath').
    + intros Herr. congruence.
    + intros ->. congruence.
Qed.

(** X5: an assignment through the reference that [operator[]] returns
    for an index of the vertex vector is read back by [operator[]] at
    that index, leaves every other digest as it was, and rehashes
    nothing: [root()] changes only if the index is [len - 1].  Beyond
    the vertex vector the assignment is undefined. *)
Theorem X5_assign_read_back (t : MerkleTree) (idx : nat) (d : element) :
  (idx < length (Tree t) ->
     exists t', operator_index_assign t idx d = Ok t'
       /\ operator_index t' idx = Ok d
       /\ (forall j, j <> idx -> operator_index t' j = operator_index t j)
       /\ (idx <> get_len t - 1 -> root t' = root t))
  /\ (length (Tree t) <= idx -> operator_index_assign t idx d = Err Undefined).
Proof.
  split.
  - intros Hidx. unfold operator_index_assign.
    destruct (hash_map_set_lt (Tree t) idx d Hidx) as (g & Hset & Hlen & Hh & Ho & Hi).
    rewrite Hset. simpl. eexists. split; [done|].
    assert (Hget : forall j, hash_map_get g j
                     = if decide (j = idx) then Ok d else hash_map_get (Tree t) j).
    { intros j. destruct (decide (j < length g)) as [Hj|Hj].
      - rewrite hash_map_get_lt, Hh by done. case_decide; [done|].
        by rewrite hash_map_get_lt by lia.
      - rewrite hash_map_get_ge by lia. case_decide; [lia|].
        by rewrite hash_map_get_ge by lia. }
    unfold operator_index, root, get_len. simpl.
    split; [by rewrite Hget, decide_True|].
    split; [intros j Hj; by rewrite Hget, decide_False|].
    intros Hne. destruct (len t) as [|k]; [done|].
    rewrite Hget, decide_False; [done|lia].
  - intros Hidx. unfold operator_index_assign.
    by rewrite hash_map_set_ge.
Qed.

(** ** Rows of the tree as rows of digests *)

Lemma chunk_inputs_length (ds : list element) :
  length (chunk_inputs ds) = length ds / Arity.
Proof. unfold chunk_inputs. by rewrite length_map, length_seq. Qed.

Lemma chunk_inputs_lookup (ds : list element) q :
  q < length ds / Arity ->
  chunk_inputs ds !! q
  = Some (concat (map element_bytes (take Arity (drop (q * Arity) ds)))).
Proof.
  intros Hq. unfold chunk_inputs.
  change (map ?f ?l) with (f <$> l). rewrite list_lookup_fmap.
  by rewrite lookup_seq_lt.
Qed.

Lemma level_up_length (ds : list element) : length (level_up ds) = length ds / Arity.
Proof. unfold level_up. by rewrite length_map, chunk_inputs_length. Qed.

Lemma level_length (data : list Hashable) r :
  length (level data r) = row_size (length data) r.
Proof.
  induction r as [|r IH]; [unfold level; simpl; by rewrite length_map|].
  change (level data (S r)) with (level_up (level data r)).
  by rewrite level_up_length, IH.
Qed.

Lemma map_seq_shift {A : Type} (f : nat -> A) base n :
  map (fun k => f (base + k)) (seq 0 n) = map f (seq base n).
Proof.
  revert base. induction n as [|n IH]; intros base; [done|].
  rewrite !seq_S, !map_app, IH. simpl. done.
Qed.

Lemma chunk_of_row {A : Type} (f : nat -> A) s m q :
  q * Arity + Arity <= m ->
  take Arity (drop (q * Arity) (map f (seq s m))) = map f (seq (s + q * Arity) Arity).
Proof.
  intros Hq. change (map ?g ?l) with (g <$> l).
  rewrite <- fmap_drop, <- fmap_take, drop_seq, take_seq.
  by rewrite Nat.min_l by lia.
Qed.

Lemma block_le_div q m : 0 < Arity -> q < m / Arity -> q * Arity + Arity <= m.
Proof.
  intros HA Hq. pose proof (Nat.Div0.mul_div_le m Arity) as Hle.
  assert (S q <= m / Arity) as Hs by lia.
  apply (Nat.mul_le_mono_l _ _ Arity) in Hs. lia.
Qed.

Lemma rows_are_levels (data : list Hashable) t r :
  0 < Arity -> tree_shape data t -> r < row_count t ->
  map (fun j => v_hash (vertex_at (Tree t) j))
    (seq (row_start (length data) r) (row_size (length data) r))
  = level data r.
Proof.
  intros HA Hs. induction r as [|r IH]; intros Hr.
  - simpl. change (row_size (length data) 0) with (length data). unfold level. simpl.
    apply (list_eq_same_length _ _ (length data));
      [by rewrite length_map|by rewrite length_map, length_seq|].
    intros i x y Hi Hx Hy.
    change (map ?f ?l) with (f <$> l) in Hx, Hy.
    rewrite list_lookup_fmap, lookup_seq_lt in Hx by done.
    rewrite list_lookup_fmap in Hy.
    destruct (data !! i) as [a|] eqn:Ha; [|done].
    simpl in Hx, Hy. injection Hx as <-. injection Hy as <-.
    apply (shape_leaf_hash _ _ Hs i a Ha).
  - change (level data (S r)) with (level_up (level data r)).
    rewrite <- IH by lia. unfold level_up.
    apply (list_eq_same_length _ _ (row_size (length data) (S r))).
    + by rewrite length_map, chunk_inputs_length, length_map, length_seq.
    + by rewrite length_map, length_seq.
    + intros i x y Hi Hx Hy.
      change (map ?f ?l) with (f <$> l) in Hx, Hy.
      rewrite list_lookup_fmap, lookup_seq_lt in Hx by done.
      rewrite list_lookup_fmap, chunk_inputs_lookup in Hy
        by (by rewrite length_fmap, length_seq).
      cbn [fmap option_fmap option_map] in Hx, Hy.
      injection Hx as <-. injection Hy as <-.
      change (row_start (length data) r + row_size (length data) r)
        with (row_start (length data) (S r)).
      rewrite (shape_node_hash _ _ Hs (S r)); [|lia|unfold in_row; lia].
      f_equal. unfold child_buffer, children_digests, first_child. simpl Nat.pred.
      replace (row_start (length data) (S r) + i - row_start (length data) (S r))
        with i by lia.
      rewrite (chunk_of_row (fun j => v_hash (vertex_at (Tree t) j)))
        by (by apply block_le_div).
      do 2 f_equal. apply (map_seq_shift (fun j => v_hash (vertex_at (Tree t) j))).
Qed.

(** X6: the digests stored in row [r] of a built tree are the [r]-fold
    grouping of the leaf digests: row 0 holds the hashes of the leaves,
    and each row above holds, for every full group of [Arity]
    consecutive digests of the row below, the hash of their
    concatenation.  When the leaf count is a power of the arity the top
    row is [root()] alone. *)
Theorem X6_rows_are_levels (data : list Hashable) t :
  2 <= Arity -> MerkleTree_ctor data = Ok t ->
  (forall r, r < get_row_count t ->
     Forall2 (fun j d => operator_index t j = Ok d)
       (seq (row_start (length data) r) (row_size (length data) r))
       (level data r))
  /\ (perfect (length data) ->
        exists d, root t = Ok d /\ level data (get_row_count t - 1) = [d]).
Proof.
  intros HA Ht. unfold get_row_count. built data t Hs. split.
  - intros r Hr. rewrite <- (rows_are_levels data t r) by (lia || done).
    apply path_digests. apply Forall_forall. intros j Hj.
    apply elem_of_seq in Hj. apply (shape_in_range data t r j Hs Hr). done.
  - intros (k & Hk0 & Hk).
    destruct (perfect_top data t k HA Hs Hk) as (HR & HL & _).
    exists (v_hash (vertex_at (Tree t) (len t - 1))).
    split; [apply (root_ok data t Hs); lia|].
    rewrite <- (rows_are_levels data t (row_count t - 1)) by (lia || done).
    rewrite HR. replace (S k - 1) with k by lia.
    rewrite Hk, perfect_row_size, Nat.sub_diag by lia. rewrite <- Hk. simpl.
    do 3 f_equal. lia.
Qed.

(** ** The root commits to the leaves *)

Lemma concat_bytes_inj (l l' : list element) :
  (forall a b, element_bytes a = element_bytes b -> a = b) ->
  length l = length l' ->
  concat (map element_bytes l) = concat (map element_bytes l') -> l = l'.
Proof.
  intros Hinj. revert l'. induction l as [|a l IH]; intros [|a' l'] Hlen Heq;
    simpl in *; try done.
  apply app_inj_1 in Heq as [Ha Hl]; [|by rewrite !element_bytes_length].
  f_equal; [by apply Hinj|]. apply IH; [lia|done].
Qed.

Lemma chunk_inputs_inj (ds ds' : list element) :
  0 < Arity ->
  (forall a b, element_bytes a = element_bytes b -> a = b) ->
  length ds = length ds' -> length ds mod Arity = 0 ->
  chunk_inputs ds = chunk_inputs ds' -> ds = ds'.
Proof.
  intros HA Hinj Hlen Hmod Heq.
  apply (list_eq_same_length _ _ (length ds)); [done|done|].
  intros i x y Hi Hx Hy.
  set (q := i / Arity).
  pose proof (Nat.div_mod_eq i Arity) as Hdm.
  pose proof (Nat.mod_upper_bound i Arity ltac:(lia)) as Hub.
  pose proof (Nat.div_mod_eq (length ds) Arity) as Hdm'. rewrite Hmod in Hdm'.
  assert (Hq : q < length ds / Arity).
  { unfold q. apply Nat.Div0.div_lt_upper_bound. lia. }
  pose proof (block_le_div q (length ds) HA Hq) as Hblk.
  pose proof (chunk_inputs_lookup ds q Hq) as H1.
  pose proof (chunk_inputs_lookup ds' q ltac:(by rewrite <- Hlen)) as H2.
  rewrite Heq, H2 in H1. injection H1 as H1.
  apply concat_bytes_inj in H1; [|done|rewrite !length_take, !length_drop; lia].
  assert (Hix : take Arity (drop (q * Arity) ds) !! (i mod Arity) = Some x).
  { rewrite lookup_take, decide_True, lookup_drop by done.
    rewrite <- Hx. f_equal. unfold q. lia. }
  assert (Hiy : take Arity (drop (q * Arity) ds') !! (i mod Arity) = Some y).
  { rewrite lookup_take, decide_True, lookup_drop by done.
    rewrite <- Hy. f_equal. unfold q. lia. }
  congruence.
Qed.

Lemma map_hash_inj (xs ys : list (list byte)) :
  Forall2 (fun x y => hash x = hash y -> x = y) xs ys ->
  map hash xs = map hash ys -> xs = ys.
Proof.
  induction 1 as [|x y xs ys Hxy _ IH]; simpl; [done|].
  intros [= Hh Ht]. f_equal; [by apply Hxy|by apply IH].
Qed.

Lemma level_inj (data data' : list Hashable) k :
  2 <= Arity ->
  (forall a b, element_bytes a = element_bytes b -> a = b) ->
  length data = Arity ^ k -> length data' = Arity ^ k ->
  (forall r, r <= k ->
     Forall2 (fun x y => hash x = hash y -> x = y) (hashed data r) (hashed data' r)) ->
  forall r, r <= k -> level data r = level data' r ->
  map serialize data = map serialize data'.
Proof.
  intros HA Hinj Hn Hn' Hfree. induction r as [|r IH]; intros Hr Heq.
  - unfold level in Heq. simpl in Heq.
    apply map_hash_inj; [apply (Hfree 0); lia|].
    by rewrite !map_map.
  - apply IH; [lia|].
    change (level data (S r)) with (level_up (level data r)) in Heq.
    change (level data' (S r)) with (level_up (level data' r)) in Heq.
    apply chunk_inputs_inj; [lia|done| |  |].
    + by rewrite !level_length, Hn, Hn'.
    + rewrite level_length, Hn, perfect_row_size by lia.
      replace (k - r) with (S (k - S r)) by lia.
      rewrite Nat.pow_succ_r', Nat.mul_comm. apply Nat.Div0.mod_mul.
    + apply map_hash_inj; [apply (Hfree (S r)); lia|done].
Qed.

(** X7: two trees over the same power-of-arity number of leaves have
    different roots as soon as their leaves differ, unless the hash
    collides on two byte strings that the two constructions hash at the
    same position. *)
Theorem X7_root_commits (data data' : list Hashable) t t' k :
  2 <= Arity -> 0 < k ->
  (forall a b, element_bytes a = element_bytes b -> a = b) ->
  length data = Arity ^ k -> length data' = Arity ^ k ->
  MerkleTree_ctor data = Ok t -> MerkleTree_ctor data' = Ok t' ->
  (forall r, r <= k ->
     Forall2 (fun x y => hash x = hash y -> x = y) (hashed data r) (hashed data' r)) ->
  map serialize data <> map serialize data' ->
  root t <> root t'.
Proof.
  intros HA Hk Hinj Hn Hn' Ht Ht' Hfree Hdiff Hroot. apply Hdiff.
  destruct (ctor_inv data t) as [_ Hs]; [lia|done|].
  destruct (ctor_inv data' t') as [_ Hs']; [lia|done|].
  destruct (perfect_top data t k HA Hs Hn) as (HR & HL & _).
  destruct (perfect_top data' t' k HA Hs' Hn') as (HR' & HL' & _).
  apply (level_inj data data' k HA Hinj Hn Hn' Hfree k); [lia|].
  rewrite <- (rows_are_levels data t k) by (lia || done).
  rewrite <- (rows_are_levels data' t' k) by (lia || done).
  rewrite (root_ok data t Hs), (root_ok data' t' Hs') in Hroot by lia.
  injection Hroot as Hroot.
  rewrite Hn at 2. rewrite Hn' at 2.
  rewrite perfect_row_size, Nat.sub_diag by lia. simpl.
  rewrite HL, HL' in Hroot. simpl in Hroot. rewrite !Nat.sub_0_r in Hroot.
  by rewrite Hroot.
Qed.

(** ** What is printed *)

Lemma string_app_cons x (a b : string) : String x a +:+ b = String x (a +:+ b).
Proof. reflexivity. Qed.

Lemma string_app_assoc (a b c : string) : (a +:+ b) +:+ c = a +:+ b +:+ c.
Proof.
  induction a as [|x a IH]; [done|]. rewrite !string_app_cons. by rewrite IH.
Qed.

Lemma string_app_nil_r (a : string) : a +:+ "" = a.
Proof.
  induction a as [|x a IH]; [done|]. rewrite string_app_cons. by rewrite IH.
Qed.

Lemma string_concat_cons (x : string) (xs : list string) :
  String.concat "" (x :: xs) = x +:+ String.concat "" xs.
Proof. destruct xs; simpl; [by rewrite string_app_nil_r|done]. Qed.

Lemma show_sources_text label ein out :
  show_sources label ein out
  = out +:+ String.concat "" (map (fun src => label src +:+ "  ") ein).
Proof.
  unfold show_sources. revert out. induction ein as [|src ein IH]; intros out.
  - simpl. by rewrite string_app_nil_r.
  - change (map ?f (src :: ein)) with (f src :: map f ein).
    rewrite string_concat_cons. simpl foldl. rewrite IH.
    by rewrite !string_app_assoc.
Qed.

Lemma show_vertex_text label (g : graph_t) i out :
  show_vertex label i (vertex_at g i) out = out +:+ vertex_line label g i.
Proof.
  unfold show_vertex, vertex_line.
  destruct (v_in (vertex_at g i)) as [|c cs] eqn:Hin;
    rewrite show_sources_text; by rewrite !string_app_assoc.
Qed.

Lemma show_vertices_text label (g : graph_t) n i out :
  length g - i = n ->
  show_vertices label i (drop i g) out
  = out +:+ String.concat "" (map (vertex_line label g) (seq i n)).
Proof.
  revert i out. induction n as [|n IH]; intros i out Hn.
  - rewrite drop_ge by lia. simpl. by rewrite string_app_nil_r.
  - rewrite (drop_S g (vertex_at g i) i) by (apply lookup_vertex_at; lia).
    simpl show_vertices. rewrite IH by lia.
    change (seq i (S n)) with (i :: seq (S i) n).
    change (map ?f (i :: ?l)) with (f i :: map f l).
    by rewrite string_concat_cons, show_vertex_text, string_app_assoc.
Qed.

Lemma built_lines label (data : list Hashable) t cout :
  2 <= Arity -> tree_shape data t ->
  exists lines,
    show_vertices label 0 (Tree t) cout = cout +:+ String.concat "" lines
    /\ length lines = len t
    /\ (forall j, j < leafs t -> lines !! j = Some (label j +:+ " --- leaf" +:+ endl))
    /\ (forall r j, 0 < r < row_count t -> in_row (length data) r j ->
          lines !! j
          = Some (label j +:+ " <-- "
                  +:+ String.concat ""
                        (map (fun c => label c +:+ "  ")
                           (seq (row_start (length data) (r - 1)
                                 + (j - row_start (length data) r) * Arity) Arity))
                  +:+ endl)).
Proof.
  intros HA Hs.
  exists (map (vertex_line label (Tree t)) (seq 0 (length (Tree t)))).
  split; [|split; [|split]].
  - rewrite <- (show_vertices_text label (Tree t) (length (Tree t)) 0 cout) by lia.
    done.
  - by rewrite length_map, length_seq, (shape_length _ _ Hs).
  - intros j Hj. rewrite (shape_leafs _ _ Hs) in Hj.
    assert (Hr0 : 0 < row_count t).
    { rewrite (shape_row_count _ _ Hs). apply row_count_from_pos. }
    pose proof (leaf_in_row _ _ Hj) as Hin.
    change (map ?f ?l) with (f <$> l). rewrite list_lookup_fmap.
    rewrite lookup_seq_lt by (by apply (shape_in_range data t 0 j Hs)).
    simpl. unfold vertex_line. by rewrite (shape_in _ _ Hs 0 j Hr0 Hin).
  - intros r j Hr Hin.
    change (map ?f ?l) with (f <$> l). rewrite list_lookup_fmap.
    rewrite lookup_seq_lt by (apply (shape_in_range data t r j Hs); [lia|done]).
    simpl. unfold vertex_line. rewrite (shape_in _ _ Hs r j) by (lia || done).
    destruct r as [|r]; [lia|]. simpl Nat.eqb. cbv iota.
    unfold first_child. simpl Nat.pred. replace (S r - 1) with r by lia.
    destruct Arity as [|a]; [lia|]. done.
Qed.

(** X8: on the graph of a built tree [print] appends one line per
    vertex to [std::cout], in index order: the line of a vertex of the
    leaf row is its index followed by [" --- leaf"], the line of a
    vertex of a row above is its index, [" <-- "] and the indices of its
    [Arity] children from left to right, each followed by two spaces. *)
Theorem X8_print (data : list Hashable) t (cout : string) :
  2 <= Arity -> MerkleTree_ctor data = Ok t ->
  exists lines,
    print (Tree t) cout = cout +:+ String.concat "" lines
    /\ length lines = get_len t
    /\ (forall j, j < get_leafs t ->
          lines !! j = Some (pretty j +:+ " --- leaf" +:+ endl))
    /\ (forall r j, 0 < r < get_row_count t -> in_row (length data) r j ->
          lines !! j
          = Some (pretty j +:+ " <-- "
                  +:+ String.concat ""
                        (map (fun c => pretty c +:+ "  ")
                           (seq (row_start (length data) (r - 1)
                                 + (j - row_start (length data) r) * Arity) Arity))
                  +:+ endl)).
Proof.
  intros HA Ht. built data t Hs. by apply (built_lines pretty data t cout).
Qed.

(** X9: [operator<<] on a built tree returns the stream reference it is
    given and writes to the object [std::cout], whichever stream it is
    given: [std::cout] receives one line per vertex, in index order, as
    [print] writes them, a vertex being shown as its index and its
    digest between parentheses, and every other stream keeps its text.
    So [std::cout << tree] adds the lines to the stream it is given, and
    [o << tree] for any other stream [o] adds nothing to [o]. *)
Theorem X9_operator_shl (data : list Hashable) t (o : ostream) (os : streams) :
  2 <= Arity -> MerkleTree_ctor data = Ok t ->
  exists lines label os',
    operator_shl o t os = (o, os')
    /\ os' std_cout = os std_cout +:+ String.concat "" lines
    /\ (forall s, s <> std_cout -> os' s = os s)
    /\ (o = std_cout -> os' o = os o +:+ String.concat "" lines)
    /\ length lines = get_len t
    /\ (forall j d, operator_index t j = Ok d ->
          label j = "(" +:+ pretty j +:+ ", " +:+ show_element d +:+ ")")
    /\ (forall j, j < get_leafs t ->
          lines !! j = Some (label j +:+ " --- leaf" +:+ endl))
    /\ (forall r j, 0 < r < get_row_count t -> in_row (length data) r j ->
          lines !! j
          = Some (label j +:+ " <-- "
                  +:+ String.concat ""
                        (map (fun c => label c +:+ "  ")
                           (seq (row_start (length data) (r - 1)
                                 + (j - row_start (length data) r) * Arity) Arity))
                  +:+ endl)).
Proof.
  intros HA Ht. built data t Hs.
  destruct (built_lines (vertex_label (Tree t)) data t (os std_cout) HA Hs)
    as (lines & Hout & Hlen & Hleaf & Hup).
  exists lines, (vertex_label (Tree t)), (snd (operator_shl o t os)).
  assert (Hcout : (operator_shl o t os).2 std_cout
                  = os std_cout +:+ String.concat "" lines).
  { unfold operator_shl, stream_write. cbn [snd]. by case_decide. }
  split; [done|]. split; [done|]. split; [|split; [|split; [done|]]].
  - intros s Hne. unfold operator_shl, stream_write. cbn [snd]. by case_decide.
  - by intros ->.
  - split; [|by split].
    intros j d Hd. unfold operator_index, hash_map_get in Hd.
    unfold vertex_label, vertex_at.
    destruct (Tree t !! j) as [w|]; [|done]. injection Hd as <-. done.
Qed.

(** ** Replacing one leaf *)

Lemma level_insert (data : list Hashable) i a' r q :
  0 < Arity -> q <> i / Arity ^ r ->
  level (<[i:=a']> data) r !! q = level data r !! q.
Proof.
  intros HA. revert q. induction r as [|r IH]; intros q Hq.
  - rewrite Nat.pow_0_r, Nat.div_1_r in Hq. unfold level. simpl.
    change (map ?f ?l) with (f <$> l). rewrite list_fmap_insert.
    by rewrite list_lookup_insert_ne.
  - change (level ?d (S r)) with (level_up (level d r)). unfold level_up.
    change (map ?f ?l) with (f <$> l). rewrite !list_lookup_fmap.
    assert (Hlen : length (level (<[i:=a']> data) r) = length (level data r)).
    { by rewrite !level_length, length_insert. }
    destruct (decide (q < length (level data r) / Arity)) as [Hlt|Hge].
    + rewrite !chunk_inputs_lookup by (by rewrite ?Hlen). simpl. do 4 f_equal.
      apply list_eq. intros k. rewrite !lookup_take.
      case_decide as Hk; [|done]. rewrite !lookup_drop. apply IH.
      intros Heq. apply Hq.
      rewrite Nat.pow_succ_r', (Nat.mul_comm Arity), <- Nat.Div0.div_div, <- Heq.
      symmetry. apply div_in_block. lia.
    + rewrite !(lookup_ge_None_2 (chunk_inputs _))
        by (rewrite chunk_inputs_length, ?Hlen; lia).
      done.
Qed.

(** X10: replacing leaf [i] of the input changes, in every row [r] of
    the built tree, at most the digest of the node at offset
    [i / Arity ^ r] of that row: every other digest, and the shape of
    the tree, are the same. *)
Theorem X10_one_leaf_one_path (data : list Hashable) (i : nat) (a' : Hashable) t t' :
  2 <= Arity ->
  MerkleTree_ctor data = Ok t -> MerkleTree_ctor (<[i:=a']> data) = Ok t' ->
  get_leafs t' = get_leafs t /\ get_len t' = get_len t
  /\ get_row_count t' = get_row_count t
  /\ (forall j, parent t' j = parent t j /\ children t' j = children t j)
  /\ (forall r j, r < get_row_count t -> in_row (length data) r j ->
        j <> row_start (length data) r + i / Arity ^ r ->
        operator_index t' j = operator_index t j).
Proof.
  intros HA Ht Ht'. unfold get_leafs, get_len, get_row_count.
  destruct (ctor_inv data t) as [_ Hs]; [lia|done|].
  destruct (ctor_inv (<[i:=a']> data) t') as [_ Hs']; [lia|done|].
  pose proof (length_insert data i a') as Hn.
  assert (HR : row_count t' = row_count t).
  { by rewrite (shape_row_count _ _ Hs), (shape_row_count _ _ Hs'), Hn. }
  assert (HL : len t' = len t).
  { by rewrite (shape_len _ _ Hs), (shape_len _ _ Hs'), Hn, HR. }
  assert (HT : length (Tree t') = length (Tree t)).
  { by rewrite (shape_length _ _ Hs), (shape_length _ _ Hs'). }
  split; [by rewrite (shape_leafs _ _ Hs), (shape_leafs _ _ Hs')|].
  split; [done|]. split; [done|]. split.
  - intros j. destruct (decide (j < len t)) as [Hj|Hj].
    + destruct (shape_find data t j Hs Hj) as (r & Hr & Hin).
      assert (Hin' : in_row (length (<[i:=a']> data)) r j) by (by rewrite Hn).
      rewrite (parent_shape _ t' r j Hs'), (parent_shape _ t r j Hs) by (done || lia).
      rewrite (children_shape _ t' r j Hs'), (children_shape _ t r j Hs)
        by (done || lia).
      by rewrite Hn, HR.
    + unfold parent, children.
      rewrite !lookup_ge_None_2; [done| |];
        rewrite ?HT, (shape_length _ _ Hs); lia.
  - intros r j Hr Hin Hne.
    assert (Hj : j < length (Tree t)) by (by apply (shape_in_range data t r)).
    rewrite !operator_index_lt by (by rewrite ?HT). f_equal.
    pose proof (rows_are_levels data t r ltac:(lia) Hs Hr) as Hrow.
    pose proof (rows_are_levels _ t' r ltac:(lia) Hs' ltac:(lia)) as Hrow'.
    rewrite Hn in Hrow'.
    pose proof (level_insert data i a' r (j - row_start (length data) r)
                  ltac:(lia) ltac:(destruct Hin; lia)) as Hlev.
    rewrite <- Hrow, <- Hrow' in Hlev.
    change (map ?f ?l) with (f <$> l) in Hlev.
    rewrite !list_lookup_fmap, lookup_seq_lt in Hlev by (destruct Hin; lia).
    simpl in Hlev. injection Hlev as Hlev.
    replace (row_start (length data) r + (j - row_start (length data) r)) with j
      in Hlev by (destruct Hin; lia).
    done.
Qed.

(** ** Paths and edges of a built tree *)

(** X11: in a built tree, [hash_path] of a leaf returns the digests of
    the nodes met from that leaf by following [parent] until a node has
    none.  When the leaf count is a power of the arity the walk ends at
    the final node: the sequence has one digest per row and ends with
    what [root()] returns. *)
Theorem X11_leaf_path_reaches_root (data : list Hashable) t leafIndex :
  2 <= Arity -> Arity <= length data ->
  MerkleTree_ctor data = Ok t -> leafIndex < get_leafs t ->
  exists nodes path,
    parent_path t leafIndex nodes
    /\ Forall2 (fun j d => operator_index t j = Ok d) nodes path
    /\ hash_path t leafIndex = Ok path
    /\ (perfect (length data) ->
          last nodes = Some (get_len t - 1)
          /\ length path = get_row_count t
          /\ exists d, root t = Ok d /\ last path = Some d).
Proof.
  intros HA Hge Ht Hleaf. unfold get_leafs, get_len, get_row_count in *.
  built data t Hs.
  assert (Hin0 : in_row (length data) 0 leafIndex).
  { apply leaf_in_row. by rewrite <- (shape_leafs _ _ Hs). }
  assert (Hrange : leafIndex < length (Tree t)).
  { apply (shape_in_range data t 0 _ Hs); [|done].
    rewrite (shape_row_count _ _ Hs). apply row_count_from_pos. }
  destruct (hash_path_ok data t leafIndex) as (nodes & Hpath & Hrun); [lia|done|done|].
  exists nodes, (map (fun j => v_hash (vertex_at (Tree t) j)) nodes).
  split; [done|]. split; [apply path_digests; by apply (parent_path_in_range t leafIndex)|].
  split; [done|].
  intros (k & Hk0 & Hk).
  destruct (perfect_last data t k HA Hs Hk leafIndex nodes Hpath 0 Hin0) as [Hlast Hlen];
    [lia|].
  destruct (perfect_top data t k HA Hs Hk) as (HR & HL & _).
  split; [done|]. split; [rewrite length_map, Hlen, HR; lia|].
  exists (v_hash (vertex_at (Tree t) (len t - 1))). split.
  - apply (root_ok data t Hs). lia.
  - change (map ?f ?l) with (f <$> l). by rewrite fmap_last, Hlast.
Qed.

(** X12: in a built tree, [children] of a node above the leaf row
    returns [Arity] nodes, each of which has that node as its parent; a
    node that has a parent occurs among the children of that parent.
    When the leaf count is a power of the arity, every node but the
    final one has a parent. *)
Theorem X12_parent_children_inverse (data : list Hashable) t :
  2 <= Arity -> Arity <= length data ->
  MerkleTree_ctor data = Ok t ->
  (forall j, get_leafs t <= j < get_len t ->
     exists cs, children t j = Ok (map Some cs)
       /\ length cs = Arity
       /\ forall c, c ∈ cs -> parent t c = Ok j)
  /\ (forall i p, parent t i = Ok p ->
        exists cs, children t p = Ok cs /\ Some i ∈ cs)
  /\ (perfect (length data) ->
        forall i, i < get_len t - 1 -> exists p, parent t i = Ok p).
Proof.
  intros HA Hge Ht. unfold get_leafs, get_len.
  built data t Hs.
  split; [|split].
  - intros j [Hlo Hhi].
    destruct (shape_find data t j Hs Hhi) as (r & Hr & Hin).
    destruct r as [|r].
    { destruct Hin as [_ Hin]. simpl in Hin.
      change (row_size (length data) 0) with (length data) in Hin.
      rewrite (shape_leafs _ _ Hs) in Hlo. lia. }
    exists (seq (first_child (length data) (S r) j) Arity).
    split; [by rewrite (children_shape data t (S r) j Hs Hr Hin)|].
    split; [apply length_seq|].
    intros c Hc. apply elem_of_seq in Hc.
    set (k := c - first_child (length data) (S r) j).
    assert (Hk : k < Arity) by (unfold k; lia).
    replace c with (first_child (length data) (S r) j + k) by (unfold k; lia).
    destruct (first_child_in_row _ r j k Hin Hk) as [Hcin Hblk].
    rewrite (parent_shape data t r _ Hs) by (done || lia).
    rewrite decide_True by (split; [lia|done]).
    by rewrite parent_of_first_child.
  - intros i p Hp.
    destruct (parent_inv data t i p Hs) as (r & HSr & Hin & -> & Hpin); [lia|done|].
    eexists. split; [by apply (children_shape data t (S r) _ Hs)|]. simpl.
    apply (list_elem_of_fmap_2 Some). apply elem_of_seq.
    unfold first_child, parent_of. simpl Nat.pred. destruct Hin as [Hlo Hhi].
    set (x := i - row_start (length data) r).
    replace (row_start (length data) (S r) + x / Arity - row_start (length data) (S r))
      with (x / Arity) by lia.
    pose proof (Nat.div_mod_eq x Arity) as Hdm.
    pose proof (Nat.mod_upper_bound x Arity) as Hub.
    assert (Hi : i = row_start (length data) r + x) by (unfold x; lia).
    rewrite (Nat.mul_comm (x / Arity)). lia.
  - intros (k & Hk0 & Hk) j Hj.
    destruct (perfect_top data t k HA Hs Hk) as (HR & HL & Htop).
    destruct (shape_find data t j Hs) as (r & Hr & Hin); [lia|].
    destruct (decide (r = k)) as [->|Hne]; [specialize (Htop j Hin); lia|].
    eexists. apply (perfect_parent data t k r j); (done || lia).
Qed.

End Merkle.


(** ** The theorems on the trees of the unit tests *)

(** The constructor at the two-byte checksum of [Toy], in a build with
    assertions and in a build with [NDEBUG]. *)
Abbreviation toy_ctor :=
  (MerkleTree_ctor Toy.element_size Toy.element_bytes Toy.default_element
     Toy.hash Toy.serialize false).

Abbreviation toy_ctor_ndebug :=
  (MerkleTree_ctor Toy.element_size Toy.element_bytes Toy.default_element
     Toy.hash Toy.serialize true).

Abbreviation toy_validate := (validate Toy.element_bytes Toy.hash Toy.serialize).

Lemma toy_bytes_length (e : Toy.element) :
  length (Toy.element_bytes e) = Toy.element_size.
Proof. reflexivity. Qed.

(** The 8 leaves and arity 2 of the unit tests: 15 vertices in 4 rows;
    the out-edge of each vertex leads to its parent, the in-edges come
    from its children, left to right. *)
Example edges_8_2 :
  match toy_ctor 2 (Toy.digits 8) with
  | Ok t => Some (len t, row_count t, map (fun w => (v_out w, v_in w)) (Tree t))
  | Err _ => None
  end
  = Some (15, 4,
          [([8], []); ([8], []); ([9], []); ([9], []);
           ([10], []); ([10], []); ([11], []); ([11], []);
           ([12], [0; 1]); ([12], [2; 3]); ([13], [4; 5]); ([13], [6; 7]);
           ([14], [8; 9]); ([14], [10; 11]);
           ([], [12; 13])]).
Proof. vm_compute. reflexivity. Qed.

(** The 9 leaves and arity 3 of the unit tests: 13 vertices in 3 rows. *)
Example edges_9_3 :
  match toy_ctor 3 (Toy.digits 9) with
  | Ok t => Some (len t, row_count t, map (fun w => (v_out w, v_in w)) (Tree t))
  | Err _ => None
  end
  = Some (13, 3,
          [([9], []); ([9], []); ([9], []); ([10], []); ([10], []); ([10], []);
           ([11], []); ([11], []); ([11], []);
           ([12], [0; 1; 2]); ([12], [3; 4; 5]); ([12], [6; 7; 8]);
           ([], [9; 10; 11])]).
Proof. vm_compute. reflexivity. Qed.

(** 6 leaves with arity 2 pass the assertion; vertex 8 has no parent. *)
Example edges_6_2 :
  match toy_ctor 2 (Toy.digits 6) with
  | Ok t => Some (len t, row_count t, map (fun w => (v_out w, v_in w)) (Tree t))
  | Err _ => None
  end
  = Some (10, 3,
          [([6], []); ([6], []); ([7], []); ([7], []); ([8], []); ([8], []);
           ([9], [0; 1]); ([9], [2; 3]); ([], [4; 5]);
           ([], [6; 7])]).
Proof. vm_compute. reflexivity. Qed.

Lemma C1_witness :
  exists t, toy_ctor 2 (Toy.digits 8) = Ok t
    /\ (forall i a, Toy.digits 8 !! i = Some a ->
          operator_index t i = Ok (Toy.hash (Toy.serialize a)))
    /\ (forall j, j < get_len t ->
          exists r, r < get_row_count t /\ in_row 2 (length (Toy.digits 8)) r j)
    /\ (forall r j, 0 < r < get_row_count t -> in_row 2 (length (Toy.digits 8)) r j ->
          exists ds,
            length ds = 2
            /\ (forall k, k < 2 ->
                  exists d, ds !! k = Some d
                    /\ operator_index t
                         (row_start 2 (length (Toy.digits 8)) (r - 1)
                          + (j - row_start 2 (length (Toy.digits 8)) r) * 2 + k) = Ok d)
            /\ length (concat (map Toy.element_bytes ds)) = 2 * Toy.element_size
            /\ operator_index t j = Ok (Toy.hash (concat (map Toy.element_bytes ds)))).
Proof.
  apply (C1_build_digests Toy.element_size Toy.element_bytes Toy.default_element
           Toy.hash Toy.serialize false 2 toy_bytes_length (Toy.digits 8));
    [lia|reflexivity|simpl; lia].
Defined.

Lemma C3_witness :
  (false = false -> length (Toy.digits 3) mod 2 <> 0 ->
     toy_ctor 2 (Toy.digits 3) = Err InvalidLeafCount)
  /\ (false = true \/ length (Toy.digits 3) mod 2 = 0 ->
        exists t, toy_ctor 2 (Toy.digits 3) = Ok t
          /\ get_leafs t = length (Toy.digits 3) /\ length (Tree t) = get_len t)
  /\ (length (Toy.digits 3) mod 2 = 0 -> 0 < length (Toy.digits 3) ->
      2 <= length (Toy.digits 3)).
Proof.
  apply (C3_invalid_leaf_count Toy.element_size Toy.element_bytes Toy.default_element
           Toy.hash Toy.serialize false 2 toy_bytes_length (Toy.digits 3)).
  lia.
Defined.

Lemma C5_witness :
  exists t, toy_ctor 2 (Toy.digits 8) = Ok t
    /\ exists d, root t = Ok d
         /\ operator_index t (get_len t - 1) = Ok d
         /\ get_len t - 1 < length (Tree t)
         /\ parent t (get_len t - 1) = Err Undefined
         /\ (perfect 2 (length (Toy.digits 8)) ->
               forall i nodes,
                 parent_path t i nodes -> last nodes = Some (get_len t - 1)).
Proof.
  eexists. split; [vm_compute; reflexivity|].
  apply (C5_root Toy.element_size Toy.element_bytes Toy.default_element
           Toy.hash Toy.serialize false 2 toy_bytes_length (Toy.digits 8)).
  - lia.
  - simpl. lia.
  - vm_compute. reflexivity.
Defined.

Lemma C6_witness :
  (exists t, toy_ctor 2 (Toy.digits 8) = Ok t
     /\ get_row_count t = 4 /\ get_len t = 15
     /\ get_len t
        = sum_list_with (row_size 2 (length (Toy.digits 8))) (seq 0 (get_row_count t)))
  /\ (exists t, toy_ctor 3 (Toy.digits 9) = Ok t
        /\ get_row_count t = 3 /\ get_len t = 13
        /\ get_len t
           = sum_list_with (row_size 3 (length (Toy.digits 9))) (seq 0 (get_row_count t))).
Proof.
  split.
  - eexists. split; [vm_compute; reflexivity|].
    match goal with
    | |- context [get_row_count ?t] =>
        destruct (C6_row_arithmetic Toy.element_size Toy.element_bytes
                    Toy.default_element Toy.hash Toy.serialize false 2 toy_bytes_length
                    (Toy.digits 8) t ltac:(lia) ltac:(vm_compute; reflexivity))
          as (_ & Hsum & H82 & _)
    end.
    destruct (H82 eq_refl eq_refl) as [Hr Hl]. by repeat split.
  - eexists. split; [vm_compute; reflexivity|].
    match goal with
    | |- context [get_row_count ?t] =>
        destruct (C6_row_arithmetic Toy.element_size Toy.element_bytes
                    Toy.default_element Toy.hash Toy.serialize false 3 toy_bytes_length
                    (Toy.digits 9) t ltac:(lia) ltac:(vm_compute; reflexivity))
          as (_ & Hsum & _ & H93)
    end.
    destruct (H93 eq_refl eq_refl) as [Hr Hl]. by repeat split.
Defined.

Lemma C7_witness :
  exists t, toy_ctor 2 (Toy.digits 8) = Ok t
    /\ (8 < get_len t ->
          exists d nodes path,
            operator_index t 8 = Ok d
            /\ parent_path t 8 (8 :: nodes)
            /\ Forall2 (fun j e => operator_index t j = Ok e) nodes path
            /\ hash_path t 8 = Ok (d :: path))
    /\ (get_len t <= 8 ->
          operator_index t 8 = Err Undefined /\ hash_path t 8 = Err Undefined).
Proof.
  eexists. split; [vm_compute; reflexivity|].
  apply (C7_no_range_check Toy.element_size Toy.element_bytes Toy.default_element
           Toy.hash Toy.serialize false 2 toy_bytes_length (Toy.digits 8)).
  - lia.
  - simpl. lia.
  - vm_compute. reflexivity.
Defined.

Lemma C8_witness :
  exists t, toy_ctor 2 (Toy.digits 8) = Ok t
    /\ (forall j p, parent t j = Ok p ->
          exists r, S r < get_row_count t
            /\ in_row 2 (length (Toy.digits 8)) r j
            /\ in_row 2 (length (Toy.digits 8)) (S r) p
            /\ p = row_start 2 (length (Toy.digits 8)) (S r)
                   + (j - row_start 2 (length (Toy.digits 8)) r) / 2)
    /\ parent t (get_len t - 1) = Err Undefined
    /\ (perfect 2 (length (Toy.digits 8)) ->
          forall j, j < get_len t - 1 -> exists p, parent t j = Ok p).
Proof.
  eexists. split; [vm_compute; reflexivity|].
  apply (C8_parent Toy.element_size Toy.element_bytes Toy.default_element
           Toy.hash Toy.serialize false 2 toy_bytes_length (Toy.digits 8)).
  - lia.
  - simpl. lia.
  - vm_compute. reflexivity.
Defined.

Lemma C9_witness :
  exists t t',
    toy_ctor 2 (Toy.digits 8) = Ok t
    /\ run_all 2 [CallRoot; CallIndexAssign 3 Toy.default_element; CallParent 0] t = Ok t'
    /\ (forallb (fun c => negb (is_assign c))
          [CallRoot; CallIndexAssign 3 Toy.default_element; CallParent 0] = true ->
        t' = t)
    /\ get_leafs t' = get_leafs t /\ get_len t' = get_len t
    /\ get_row_count t' = get_row_count t
    /\ (forall j, parent t' j = parent t j /\ children 2 t' j = children 2 t j)
    /\ (forall j,
          (forall d,
             CallIndexAssign j d
             ∉ [CallRoot; CallIndexAssign 3 Toy.default_element; CallParent 0]) ->
          operator_index t' j = operator_index t j).
Proof.
  eexists _, _. split; [vm_compute; reflexivity|].
  split; [vm_compute; reflexivity|].
  apply (C9_only_index_assigns Toy.default_element 2).
  vm_compute. reflexivity.
Defined.

(** ** Inputs on which the specification and the code part *)

(** No leaf at all: fewer leaves than the arity, and yet no
    [InvalidLeafCount], with or without assertions.  Three leaves with
    arity 2, not a multiple of the arity: a build with [NDEBUG] returns
    a tree. *)
Lemma C3_counterexample :
  ~ (length (@nil (list byte)) mod 2 = 0 /\ 2 <= length (@nil (list byte)))
  /\ toy_ctor 2 [] = Ok (mkMerkleTree [] 0 0 1)
  /\ toy_ctor_ndebug 2 [] = Ok (mkMerkleTree [] 0 0 1)
  /\ length (Toy.digits 3) mod 2 <> 0
  /\ exists t, toy_ctor_ndebug 2 (Toy.digits 3) = Ok t
       /\ get_leafs t = 3 /\ length (Tree t) = 4.
Proof.
  split; [simpl; lia|]. split; [vm_compute; reflexivity|].
  split; [vm_compute; reflexivity|]. split; [vm_compute; lia|].
  eexists. split; [vm_compute; reflexivity|]. split; reflexivity.
Qed.

(** No leaf at all: the constructor returns a tree without vertices,
    [len - 1] wraps, and [root()] reads beyond the vertex vector: it
    returns no digest of the tree.  Six leaves with arity 2: the walk
    along [parent] from leaf 4 ends at node 8, not at the final node 9
    that [root()] reads. *)
Lemma C5_counterexample :
  (exists t,
     toy_ctor 2 [] = Ok t
     /\ get_len t = 0 /\ Tree t = []
     /\ root t = Err Undefined
     /\ forall d, root t <> Ok d)
  /\ (exists t,
        toy_ctor 2 (Toy.digits 6) = Ok t
        /\ get_len t - 1 = 9
        /\ parent_path t 4 [4; 8]
        /\ last [4; 8] <> Some (get_len t - 1)).
Proof.
  split.
  - eexists. split; [vm_compute; reflexivity|]. split; [reflexivity|].
    split; [reflexivity|]. split; [reflexivity|]. intros d. vm_compute. discriminate.
  - eexists. split; [vm_compute; reflexivity|]. split; [reflexivity|]. split.
    + apply parent_path_step with 8; [vm_compute; reflexivity|].
      apply parent_path_top; [vm_compute; lia|vm_compute; reflexivity].
    + vm_compute. discriminate.
Qed.

(** Eight leaves with arity 2: index 8 is no leaf index, and [hash_path]
    returns the path from node 8; index 15 is no node index, and
    [operator[]] raises no [IndexOutOfRange]. *)
Lemma C7_counterexample :
  exists t path,
    toy_ctor 2 (Toy.digits 8) = Ok t
    /\ get_leafs t <= 8
    /\ hash_path t 8 = Ok path
    /\ length path = 3
    /\ get_len t <= 15
    /\ operator_index t 15 <> Err IndexOutOfRange
    /\ hash_path t 15 <> Err IndexOutOfRange.
Proof.
  eexists _, _. split; [vm_compute; reflexivity|].
  split; [vm_compute; lia|]. split; [vm_compute; reflexivity|].
  split; [reflexivity|]. split; [vm_compute; lia|].
  split; vm_compute; discriminate.
Qed.

(** Eight leaves with arity 2: [parent] of the root, node 14, raises no
    [RootHasNoParent].  Six leaves with arity 2: node 8 is not the final
    node and [parent] returns no index for it. *)
Lemma C8_counterexample :
  (exists t, toy_ctor 2 (Toy.digits 8) = Ok t
     /\ get_len t - 1 = 14
     /\ parent t 14 <> Err RootHasNoParent)
  /\ (exists t, toy_ctor 2 (Toy.digits 6) = Ok t
        /\ 8 < get_len t - 1
        /\ forall p, parent t 8 <> Ok p).
Proof.
  split.
  - eexists. split; [vm_compute; reflexivity|]. split; [reflexivity|].
    vm_compute. discriminate.
  - eexists. split; [vm_compute; reflexivity|]. split; [vm_compute; lia|].
    intros p. vm_compute. discriminate.
Qed.

(** An assignment through the reference [operator[]] returns changes
    what [root] returns. *)
Lemma C9_counterexample :
  exists t t',
    toy_ctor 2 (Toy.digits 8) = Ok t
    /\ run_all 2 [CallIndexAssign 14 Toy.default_element] t = Ok t'
    /\ root t' <> root t.
Proof.
  eexists _, _. split; [vm_compute; reflexivity|].
  split; [vm_compute; reflexivity|]. vm_compute. discriminate.
Qed.

(** ** Inputs on which the constructor leaves a node without parent *)

(** Six leaves with arity 2 pass the assertion, 6 being a multiple of 2,
    and give the rows 0..5, 6..8 and 9.  Row 1 has three nodes, row 2
    has one, made of nodes 6 and 7: node 8 is given no parent, although
    it is not the final node. *)


(** C4 (defect of the constructor): the path of leaf 4 is made of the
    digests of nodes 4 and 8; it stops at node 8, which is not the
    final node, and does not end with the digest [root()] returns. *)
Theorem C4_path_stops_at_orphan :
  exists t path d,
    toy_ctor 2 (Toy.digits 6) = Ok t
    /\ length (Toy.digits 6) mod 2 = 0 /\ 2 <= length (Toy.digits 6)
    /\ 4 < get_leafs t
    /\ parent_path t 4 [4; 8]
    /\ Forall2 (fun j e => operator_index t j = Ok e) [4; 8] path
    /\ hash_path t 4 = Ok path
    /\ get_len t - 1 = 9
    /\ root t = Ok d
    /\ last path <> Some d.
Proof.
  eexists _, _, _. split; [vm_compute; reflexivity|].
  split; [reflexivity|]. split; [simpl; lia|]. split; [vm_compute; lia|].
  split.
  { apply parent_path_step with 8; [vm_compute; reflexivity|].
    apply parent_path_top; [vm_compute; lia|vm_compute; reflexivity]. }
  split; [|split; [vm_compute; reflexivity|]].
  { repeat constructor; vm_compute; reflexivity. }
  split; [reflexivity|]. split; [vm_compute; reflexivity|].
  vm_compute. discriminate.
Qed.

(** C10 (defect of the constructor): node 8 is not the final node, has
    no parent, and occurs among the children of no node. *)
Theorem C10_node_without_parent :
  exists t,
    toy_ctor 2 (Toy.digits 6) = Ok t
    /\ length (Toy.digits 6) mod 2 = 0 /\ 2 <= length (Toy.digits 6)
    /\ 8 < get_len t - 1
    /\ parent t 8 = Err Undefined
    /\ (forall j cs, children 2 t j = Ok cs -> Some 8 ∉ cs)
    /\ ~ (exists p cs, parent t 8 = Ok p /\ children 2 t p = Ok cs /\ Some 8 ∈ cs).
Proof.
  eexists. split; [vm_compute; reflexivity|].
  split; [reflexivity|]. split; [simpl; lia|]. split; [vm_compute; lia|].
  split; [vm_compute; reflexivity|]. split.
  - intros j cs Hcs Hin.
    do 10 (destruct j as [|j];
           [vm_compute in Hcs; injection Hcs as <-;
            repeat (apply elem_of_cons in Hin as [Hin|Hin]; [discriminate|]);
            by apply elem_of_nil in Hin|]).
    vm_compute in Hcs. discriminate.
  - intros (p & cs & Hp & _). vm_compute in Hp. discriminate.
Qed.

(** ** The further properties on the toy instance *)

Lemma X2_witness :
  exists t, toy_ctor 2 (Toy.digits 8) = Ok t
    /\ get_leafs t = length (Toy.digits 8)
    /\ length (Tree t) = get_len t
    /\ forall j w, Tree t !! j = Some w ->
         length (v_out w) <= 1
         /\ (forall p, p ∈ v_out w -> j < p < get_len t)
         /\ (j < get_leafs t -> v_in w = [])
         /\ (get_leafs t <= j ->
               length (v_in w) = 2 /\ forall c, c ∈ v_in w -> c < j).
Proof.
  eexists. split; [vm_compute; reflexivity|].
  apply (X2_forest Toy.element_size Toy.element_bytes Toy.default_element
           Toy.hash Toy.serialize false 2 toy_bytes_length (Toy.digits 8));
    [lia|vm_compute; reflexivity].
Defined.

Lemma X3_witness :
  exists t, toy_ctor 3 (Toy.digits 9) = Ok t
    /\ (forall j, j < get_leafs t -> children 3 t j = Ok (replicate 3 None))
    /\ (forall r j, 0 < r < get_row_count t -> in_row 3 (length (Toy.digits 9)) r j ->
          children 3 t j
          = Ok (map Some
                  (seq (row_start 3 (length (Toy.digits 9)) (r - 1)
                        + (j - row_start 3 (length (Toy.digits 9)) r) * 3) 3)))
    /\ (forall j, get_len t <= j -> children 3 t j = Err Undefined).
Proof.
  eexists. split; [vm_compute; reflexivity|].
  apply (X3_children Toy.element_size Toy.element_bytes Toy.default_element
           Toy.hash Toy.serialize false 3 toy_bytes_length (Toy.digits 9));
    [lia|vm_compute; reflexivity].
Defined.

Lemma X4_witness :
  exists t, toy_ctor 2 (Toy.digits 8) = Ok t
    /\ exists d path,
         operator_index t 9 = Ok d
         /\ hash_path t 9 = Ok (d :: path)
         /\ S (length path) <= get_row_count t
         /\ (forall p, parent t 9 = Ok p -> hash_path t p = Ok path)
         /\ (parent t 9 = Err Undefined -> path = [])
         /\ (9 = get_len t - 1 -> path = [] /\ root t = Ok d).
Proof.
  eexists. split; [vm_compute; reflexivity|].
  apply (X4_hash_path_steps Toy.element_size Toy.element_bytes Toy.default_element
           Toy.hash Toy.serialize false 2 toy_bytes_length (Toy.digits 8));
    [lia|simpl; lia|vm_compute; reflexivity|vm_compute; lia].
Defined.

Lemma X5_witness :
  exists t, toy_ctor 2 (Toy.digits 8) = Ok t
    /\ (3 < length (Tree t) ->
          exists t', operator_index_assign t 3 Toy.default_element = Ok t'
            /\ operator_index t' 3 = Ok Toy.default_element
            /\ (forall j, j <> 3 -> operator_index t' j = operator_index t j)
            /\ (3 <> get_len t - 1 -> root t' = root t))
    /\ (length (Tree t) <= 3 ->
          operator_index_assign t 3 Toy.default_element = Err Undefined).
Proof.
  eexists. split; [vm_compute; reflexivity|].
  apply (X5_assign_read_back Toy.default_element).
Defined.

Lemma X6_witness :
  exists t, toy_ctor 2 (Toy.digits 8) = Ok t
    /\ (forall r, r < get_row_count t ->
          Forall2 (fun j d => operator_index t j = Ok d)
            (seq (row_start 2 (length (Toy.digits 8)) r)
                 (row_size 2 (length (Toy.digits 8)) r))
            (level Toy.element_bytes Toy.hash Toy.serialize 2 (Toy.digits 8) r))
    /\ (perfect 2 (length (Toy.digits 8)) ->
          exists d, root t = Ok d
            /\ level Toy.element_bytes Toy.hash Toy.serialize 2 (Toy.digits 8)
                 (get_row_count t - 1) = [d]).
Proof.
  eexists. split; [vm_compute; reflexivity|].
  apply (X6_rows_are_levels Toy.element_size Toy.element_bytes Toy.default_element
           Toy.hash Toy.serialize false 2 toy_bytes_length (Toy.digits 8));
    [lia|vm_compute; reflexivity].
Defined.

Lemma X7_witness :
  exists t t', toy_ctor 2 (Toy.digits 8) = Ok t
    /\ toy_ctor 2 (<[3:=[Byte.x78]]> (Toy.digits 8)) = Ok t'
    /\ root t <> root t'.
Proof.
  eexists _, _. split; [vm_compute; reflexivity|].
  split; [vm_compute; reflexivity|].
  apply (X7_root_commits Toy.element_size Toy.element_bytes Toy.default_element
           Toy.hash Toy.serialize false 2 toy_bytes_length
           (Toy.digits 8) (<[3:=[Byte.x78]]> (Toy.digits 8)) _ _ 3).
  - lia.
  - lia.
  - intros [a1 a2] [b1 b2] H. injection H as -> ->. reflexivity.
  - reflexivity.
  - reflexivity.
  - vm_compute. reflexivity.
  - vm_compute. reflexivity.
  - intros r Hr. destruct r as [|[|[|[|r]]]]; [..|lia];
      apply (bool_decide_unpack _); vm_compute; exact I.
  - vm_compute. discriminate.
Defined.

Lemma X8_witness :
  exists t, toy_ctor 2 (Toy.digits 4) = Ok t
    /\ exists lines,
         print (Tree t) "" = "" +:+ String.concat "" lines
         /\ length lines = get_len t
         /\ (forall j, j < get_leafs t ->
               lines !! j = Some (pretty j +:+ " --- leaf" +:+ endl))
         /\ (forall r j, 0 < r < get_row_count t ->
               in_row 2 (length (Toy.digits 4)) r j ->
               lines !! j
               = Some (pretty j +:+ " <-- "
                       +:+ String.concat ""
                             (map (fun c => pretty c +:+ "  ")
                                (seq (row_start 2 (length (Toy.digits 4)) (r - 1)
                                      + (j - row_start 2 (length (Toy.digits 4)) r) * 2)
                                   2))
                       +:+ endl)).
Proof.
  eexists. split; [vm_compute; reflexivity|].
  apply (X8_print Toy.element_size Toy.element_bytes Toy.default_element
           Toy.hash Toy.serialize false 2 toy_bytes_length (Toy.digits 4));
    [lia|vm_compute; reflexivity].
Defined.

Lemma X9_witness :
  exists t, toy_ctor 2 (Toy.digits 4) = Ok t
    /\ exists lines label os',
         operator_shl Toy.default_element Toy.show_element std_cout t
           (fun _ => "")
         = (std_cout, os')
         /\ os' std_cout = "" +:+ String.concat "" lines
         /\ (forall s, s <> std_cout -> os' s = "")
         /\ (std_cout = std_cout -> os' std_cout = "" +:+ String.concat "" lines)
         /\ length lines = get_len t
         /\ (forall j d, operator_index t j = Ok d ->
               label j = "(" +:+ pretty j +:+ ", " +:+ Toy.show_element d +:+ ")")
         /\ (forall j, j < get_leafs t ->
               lines !! j = Some (label j +:+ " --- leaf" +:+ endl))
         /\ (forall r j, 0 < r < get_row_count t ->
               in_row 2 (length (Toy.digits 4)) r j ->
               lines !! j
               = Some (label j +:+ " <-- "
                       +:+ String.concat ""
                             (map (fun c => label c +:+ "  ")
                                (seq (row_start 2 (length (Toy.digits 4)) (r - 1)
                                      + (j - row_start 2 (length (Toy.digits 4)) r) * 2)
                                   2))
                       +:+ endl)).
Proof.
  eexists. split; [vm_compute; reflexivity|].
  apply (X9_operator_shl Toy.element_size Toy.element_bytes Toy.default_element
           Toy.hash Toy.serialize false 2 Toy.show_element toy_bytes_length
           (Toy.digits 4) _ std_cout (fun _ => ""));
    [lia|vm_compute; reflexivity].
Defined.

Lemma X10_witness :
  exists t t', toy_ctor 2 (Toy.digits 8) = Ok t
    /\ toy_ctor 2 (<[3:=[Byte.x78]]> (Toy.digits 8)) = Ok t'
    /\ get_leafs t' = get_leafs t /\ get_len t' = get_len t
    /\ get_row_count t' = get_row_count t
    /\ (forall j, parent t' j = parent t j /\ children 2 t' j = children 2 t j)
    /\ (forall r j, r < get_row_count t -> in_row 2 (length (Toy.digits 8)) r j ->
          j <> row_start 2 (length (Toy.digits 8)) r + 3 / 2 ^ r ->
          operator_index t' j = operator_index t j).
Proof.
  eexists _, _. split; [vm_compute; reflexivity|].
  split; [vm_compute; reflexivity|].
  apply (X10_one_leaf_one_path Toy.element_size Toy.element_bytes Toy.default_element
           Toy.hash Toy.serialize false 2 toy_bytes_length (Toy.digits 8) 3 [Byte.x78]);
    [lia|vm_compute; reflexivity|vm_compute; reflexivity].
Defined.

Lemma X11_witness :
  exists t, toy_ctor 2 (Toy.digits 8) = Ok t
    /\ exists nodes path,
         parent_path t 0 nodes
         /\ Forall2 (fun j d => operator_index t j = Ok d) nodes path
         /\ hash_path t 0 = Ok path
         /\ (perfect 2 (length (Toy.digits 8)) ->
               last nodes = Some (get_len t - 1)
               /\ length path = get_row_count t
               /\ exists d, root t = Ok d /\ last path = Some d).
Proof.
  eexists. split; [vm_compute; reflexivity|].
  apply (X11_leaf_path_reaches_root Toy.element_size Toy.element_bytes Toy.default_element
           Toy.hash Toy.serialize false 2 toy_bytes_length (Toy.digits 8)).
  - lia.
  - simpl. lia.
  - vm_compute. reflexivity.
  - vm_compute. lia.
Defined.

Lemma X12_witness :
  exists t, toy_ctor 2 (Toy.digits 8) = Ok t
    /\ (forall j, get_leafs t <= j < get_len t ->
          exists cs, children 2 t j = Ok (map Some cs)
            /\ length cs = 2
            /\ forall c, c ∈ cs -> parent t c = Ok j)
    /\ (forall i p, parent t i = Ok p ->
          exists cs, children 2 t p = Ok cs /\ Some i ∈ cs)
    /\ (perfect 2 (length (Toy.digits 8)) ->
          forall i, i < get_len t - 1 -> exists p, parent t i = Ok p).
Proof.
  eexists. split; [vm_compute; reflexivity|].
  apply (X12_parent_children_inverse Toy.element_size Toy.element_bytes Toy.default_element
           Toy.hash Toy.serialize false 2 toy_bytes_length (Toy.digits 8)).
  - lia.
  - simpl. lia.
  - vm_compute. reflexivity.
Defined.
